(** * SqliteStatementWrapper: prepared statements, parameter binding and
    row iteration (rosbag2_storage_default_plugins, sqlite_statement_wrapper.hpp)

    The header is embedded shallowly.  A [SqliteStatementWrapper] lives in a
    store addressed by the pointer a [std::shared_ptr] holds, so that every
    iterator and query result built over one statement aliases one object.
    Member functions are state transformers over that store which return,
    throw a [SqliteException], or fault (a null or dangling pointer).

    The SQLite engine is an external collaborator: it is an interface
    ([Sqlite3]) whose operations report a return code and a successor state.
    Every call made through the interface is recorded in a ghost call log,
    which no function ever reads; it exists to state which native calls an
    operation performs and in which order. *)

From stdpp Require Import base numbers list strings pretty gmap.
From Stdlib Require Import ZArith Lia Strings.Byte.

Local Open Scope Z_scope.

(** ** Machine integers *)

(** [int] is 32 bits wide.  C++ leaves signed overflow undefined; the model
    writes out what two's-complement targets do, which is to wrap. *)
Definition INT_MAX : Z := 2147483647.
Definition INT_MIN : Z := -2147483648.

Definition wrap_int (z : Z) : Z := (z + 2147483648) mod 4294967296 - 2147483648.

(** [++x] on an [int]. *)
Definition int_incr (x : Z) : Z := wrap_int (x + 1).

(** ** Return codes of sqlite3.h *)

Definition SQLITE_OK : Z := 0.
Definition SQLITE_RANGE : Z := 25.
Definition SQLITE_ROW : Z := 100.
Definition SQLITE_DONE : Z := 101.

(** ** Values *)

(** The five C++ types the bind and obtain_column_value overloads accept. *)
Inductive kind : Type :=
| KInt      (* int *)
| KTime     (* rcutils_time_point_value_t, a 64-bit integer *)
| KDouble   (* double *)
| KText     (* std::string *)
| KBlob.    (* std::shared_ptr<rcutils_char_array_t> *)

(** A [double] is carried around by its binary64 bit pattern and is never
    computed with. *)
Record double : Type := Binary64 { double_bits : Z }.

(** A [std::shared_ptr<rcutils_char_array_t>]: null, or a byte buffer. *)
Definition blob : Type := option (list byte).

Inductive value : Type :=
| VInt (v : Z)
| VTime (v : Z)
| VDouble (v : double)
| VText (v : string)
| VBlob (v : blob).

Definition kind_of (v : value) : kind :=
  match v with
  | VInt _ => KInt
  | VTime _ => KTime
  | VDouble _ => KDouble
  | VText _ => KText
  | VBlob _ => KBlob
  end.

(** Value initialisation, as [RowType row{}] performs it on each member. *)
Definition default_value (k : kind) : value :=
  match k with
  | KInt => VInt 0
  | KTime => VTime 0
  | KDouble => VDouble (Binary64 0)
  | KText => VText ""
  | KBlob => VBlob None
  end.

(** ** The engine interface *)

(** What the wrapper consumes from sqlite3 and from the C++ library.  A
    native call maps the statement's state to a return code and the state it
    leaves behind; the column accessors read the current row. *)
Class Sqlite3 : Type := {
  sqlite3_stmt : Type;
  sqlite3_step : sqlite3_stmt → Z * sqlite3_stmt;
  sqlite3_reset : sqlite3_stmt → Z * sqlite3_stmt;
  sqlite3_bind : sqlite3_stmt → Z → value → Z * sqlite3_stmt;
  sqlite3_column_int : sqlite3_stmt → nat → Z;
  sqlite3_column_int64 : sqlite3_stmt → nat → Z;
  sqlite3_column_double : sqlite3_stmt → nat → double;
  sqlite3_column_text : sqlite3_stmt → nat → string;
  sqlite3_column_blob : sqlite3_stmt → nat → list byte;
  (* std::to_string(double) *)
  to_string_double : double → string
}.

(** [std::to_string], by argument type. *)
Class ToString (T : Type) : Type := to_string : T → string.

#[export] Instance to_string_int : ToString Z := λ z, pretty z.
#[export] Instance to_string_of_double `{Sqlite3} : ToString double := to_string_double.

(** ** Exceptions *)

(** The source throws one class, [SqliteException], built from a message.
    The specification tells the raise sites apart by kind, so there is one
    constructor per raise site; the two sites of the header carry the message
    they are constructed with, the one of [step] the native code. *)
Inductive SqliteException : Type :=
| CursorError (what : string)
| BindError (what : string)
| StepError (return_code : Z).

(** ** The store and the monad *)

(** The address a [std::shared_ptr<SqliteStatementWrapper>] holds. *)
Definition loc : Type := positive.

Inductive native_call : Type :=
| call_step (p : loc)
| call_reset (p : loc)
| call_bind (p : loc) (index : Z) (v : value)
| call_column (p : loc) (index : nat) (k : kind).

Section Wrapper.
Context `{Sqlite3}.

Record SqliteStatementWrapper : Type := {
  statement_ : sqlite3_stmt;
  last_bound_parameter_index_ : Z;
  written_blobs_cache_ : list blob
}.

Record world : Type := World {
  heap : gmap loc SqliteStatementWrapper;
  calls : list native_call
}.

Inductive result (A : Type) : Type :=
| Return (a : A) (w : world)
| Throw (e : SqliteException) (w : world)
| Fault.
Arguments Return {A} a w.
Arguments Throw {A} e w.
Arguments Fault {A}.

Definition M (A : Type) : Type := world → result A.

Definition ret {A} (a : A) : M A := λ w, Return a w.

Definition throw {A} (e : SqliteException) : M A := λ w, Throw e w.

Definition bindM {A B} (m : M A) (f : A → M B) : M B := λ w,
  match m w with
  | Return a w' => f a w'
  | Throw e w' => Throw e w'
  | Fault => Fault
  end.

#[export] Instance M_ret : MRet M := @ret.
#[export] Instance M_bind : MBind M := λ A B f m, bindM m f.

(** Dereference a shared pointer. *)
Definition deref (p : loc) : M SqliteStatementWrapper := λ w,
  match heap w !! p with
  | Some s => Return s w
  | None => Fault
  end.

(** Assign to the object a shared pointer points to. *)
Definition store (p : loc) (s : SqliteStatementWrapper) : M unit := λ w,
  Return tt (World (<[p := s]> (heap w)) (calls w)).

Definition log (c : native_call) : M unit := λ w,
  Return tt (World (heap w) (calls w ++ [c])).

(** ** SqliteStatementWrapper: the private members *)

(** The wrapper once a native call has left the engine's statement in [st]:
    the wrapper's own members are as they were. *)
Definition set_statement (s : SqliteStatementWrapper) (st : sqlite3_stmt)
    : SqliteStatementWrapper :=
  {| statement_ := st;
     last_bound_parameter_index_ := last_bound_parameter_index_ s;
     written_blobs_cache_ := written_blobs_cache_ s |}.

(** Modelled from the spec: [step] is declared in the header and defined
    elsewhere.  It advances the native cursor by one row and reports a row
    available, no more rows, or fails with StepError when the engine reports
    a code other than row or done. *)
Definition step (this : loc) : M bool :=
  s ← deref this;
  let '(return_code, st) := sqlite3_step (statement_ s) in
  store this (set_statement s st) ;;
  log (call_step this) ;;
  if return_code =? SQLITE_ROW then ret true
  else if return_code =? SQLITE_DONE then ret false
  else throw (StepError return_code).

(** The column codec: one native accessor per kind; a blob is copied into a
    freshly allocated buffer. *)
Definition column_value (st : sqlite3_stmt) (index : nat) (k : kind) : value :=
  match k with
  | KInt => VInt (sqlite3_column_int st index)
  | KTime => VTime (sqlite3_column_int64 st index)
  | KDouble => VDouble (sqlite3_column_double st index)
  | KText => VText (sqlite3_column_text st index)
  | KBlob => VBlob (Some (sqlite3_column_blob st index))
  end.

(** Modelled from the spec: the five [obtain_column_value] overloads are
    declared [const] in the header and defined elsewhere.  Each reads the
    column at a 0-indexed position of the current row through the codec; the
    overload, here [k], is chosen by the type of the reference it fills. *)
Definition obtain_column_value (this : loc) (index : nat) (k : kind) : M value :=
  s ← deref this;
  log (call_column this index k) ;;
  ret (column_value (statement_ s) index k).

(** [check_and_report_bind_error(int return_code, std::string value)] *)
Definition check_and_report_bind_error_string
    (this : loc) (return_code : Z) (value : string) : M unit :=
  s ← deref this;
  if negb (return_code =? SQLITE_OK) then
    throw (BindError ("SQLite error when binding parameter " +:+
             to_string (last_bound_parameter_index_ s) +:+ " to value '" +:+ value +:+
             "'. Return code: " +:+ to_string return_code))
  else ret tt.

(** [template<typename T> check_and_report_bind_error(int return_code, T value)] *)
Definition check_and_report_bind_error {T} `{ToString T}
    (this : loc) (return_code : Z) (value : T) : M unit :=
  check_and_report_bind_error_string this return_code (to_string value).

(** Modelled from the spec: [check_and_report_bind_error(int return_code)],
    the overload without a value, is declared in the header and defined
    elsewhere.  It fails with BindError on a non-success code; having no
    value to render, its message is the other overload's without the value
    clause. *)
Definition check_and_report_bind_error_code (this : loc) (return_code : Z) : M unit :=
  s ← deref this;
  if negb (return_code =? SQLITE_OK) then
    throw (BindError ("SQLite error when binding parameter " +:+
             to_string (last_bound_parameter_index_ s) +:+
             ". Return code: " +:+ to_string return_code))
  else ret tt.

(** ** SqliteStatementWrapper: the public members *)

(** Modelled from the spec: the single-value [bind] overloads are declared
    in the header and defined elsewhere.  A bind takes the next positional
    parameter (index = previous index + 1); a blob is retained in the cache
    before the native call is issued; a non-success code fails with
    BindError.  The handle itself is returned (shared_from_this). *)
Definition bind (this : loc) (v : value) : M loc :=
  s ← deref this;
  let cache := match v with
               | VBlob b => written_blobs_cache_ s ++ [b]
               | _ => written_blobs_cache_ s
               end in
  let index := int_incr (last_bound_parameter_index_ s) in
  let '(return_code, st) := sqlite3_bind (statement_ s) index v in
  store this {| statement_ := st;
                last_bound_parameter_index_ := index;
                written_blobs_cache_ := cache |} ;;
  log (call_bind this index v) ;;
  match v with
  | VInt z => check_and_report_bind_error this return_code z
  | VTime z => check_and_report_bind_error this return_code z
  | VDouble d => check_and_report_bind_error this return_code d
  | VText t => check_and_report_bind_error_string this return_code t
  | VBlob _ => check_and_report_bind_error_code this return_code
  end ;;
  ret this.

(** [bind(T1 value1, T2 value2, Params ... values)]: the call
    [bind(value2, values ...)] is a single bind when the pack is empty and
    the variadic form again otherwise. *)
Fixpoint bind_variadic (single : loc → value → M loc)
    (this : loc) (value1 value2 : value) (values : list value) : M loc :=
  single this value1 ;;
  match values with
  | [] => single this value2
  | value3 :: values' => bind_variadic single this value2 value3 values'
  end.

(** What the call [bind(value2, values ...)] inside the variadic form
    resolves to. *)
Definition bind_rest (single : loc → value → M loc)
    (this : loc) (value2 : value) (values : list value) : M loc :=
  match values with
  | [] => single this value2
  | value3 :: values' => bind_variadic single this value2 value3 values'
  end.

(** The spec's reading of the variadic form: the equivalent sequence of
    single binds, applied to the values left to right, the first value bound
    first and then the rest in order; the sequence so far is run, then the
    next value is bound. *)
Definition bind_in_sequence (single : loc → value → M loc)
    (this : loc) (values : list value) : M loc :=
  match values with
  | [] => ret this
  | first :: others =>
      foldl (λ (so_far : M loc) (v : value), bindM so_far (λ _, single this v))
            (single this first) others
  end.

(** Modelled from the spec: [reset] is declared in the header and defined
    elsewhere.  It returns the statement to its pre-execution state, clears
    the blob cache and sets the parameter index counter to zero; no failure
    is specified for it. *)
Definition reset (this : loc) : M loc :=
  s ← deref this;
  let '(_, st) := sqlite3_reset (statement_ s) in
  store this {| statement_ := st;
                last_bound_parameter_index_ := 0;
                written_blobs_cache_ := [] |} ;;
  log (call_reset this) ;;
  ret this.

(** Modelled from the spec: [execute_and_reset] is declared in the header
    and defined elsewhere.  It steps once, ignoring row data, then resets,
    and fails with the same errors as [step]. *)
Definition execute_and_reset (this : loc) : M loc :=
  step this ;;
  reset this.

(** ** QueryResult and its Iterator *)

Record Iterator : Type := {
  Iterator_statement_ : loc;
  next_row_idx_ : Z
}.

Record QueryResult : Type := { QueryResult_statement_ : loc }.

Definition POSITION_END : Z := -1.

(** [Iterator(std::shared_ptr<SqliteStatementWrapper> statement, int position)] *)
Definition Iterator_new (statement : loc) (position : Z) : M Iterator :=
  if negb (position =? POSITION_END) then
    step statement ≫= λ row : bool,
    if row then
      ret {| Iterator_statement_ := statement; next_row_idx_ := int_incr position |}
    else
      ret {| Iterator_statement_ := statement; next_row_idx_ := POSITION_END |}
  else
    ret {| Iterator_statement_ := statement; next_row_idx_ := position |}.

(** [Iterator & operator++()]: the result is the iterator itself, updated. *)
Definition operator_pre_incr (this : Iterator) : M Iterator :=
  if negb (next_row_idx_ this =? POSITION_END) then
    step (Iterator_statement_ this) ≫= λ row : bool,
    if row then
      ret {| Iterator_statement_ := Iterator_statement_ this;
             next_row_idx_ := int_incr (next_row_idx_ this) |}
    else
      ret {| Iterator_statement_ := Iterator_statement_ this;
             next_row_idx_ := POSITION_END |}
  else
    throw (CursorError "Cannot increment result iterator beyond result set!").

(** [Iterator operator++(int)]: yields the copy that is returned, and the
    iterator itself as the increment leaves it. *)
Definition operator_post_incr (this : Iterator) : M (Iterator * Iterator) :=
  let old_value := this in
  this' ← operator_pre_incr this;
  ret (old_value, this').

(** [bool operator==(Iterator other) const] *)
Definition operator_eq (this other : Iterator) : bool :=
  bool_decide (Iterator_statement_ this = Iterator_statement_ other)
  && (next_row_idx_ this =? next_row_idx_ other).

(** [bool operator!=(Iterator other) const] *)
Definition operator_ne (this other : Iterator) : bool :=
  negb (operator_eq this other).

Section Row.
(** The template parameter pack of [QueryResult<Columns ...>]. *)
Variable Columns : list kind.

(** [obtain_row_values_impl(row, std::index_sequence<I, Is ...>)]: fills
    [std::get<I>(row)], whose type is the I-th of [Columns], then recurses on
    the remaining indices [Is]; the empty sequence ends the recursion. *)
Fixpoint obtain_row_values_impl
    (this : Iterator) (row : list value) (indices : list nat) : M (list value) :=
  match indices with
  | [] => ret row
  | i :: is_ =>
      match Columns !! i with
      | Some k =>
          v ← obtain_column_value (Iterator_statement_ this) i k;
          obtain_row_values_impl this (<[i := v]> row) is_
      | None => λ _, Fault
      end
  end.

(** [std::index_sequence_for<Columns ...>] *)
Definition index_sequence_for : list nat := seq 0 (length Columns).

Definition obtain_row_values (this : Iterator) (row : list value) : M (list value) :=
  obtain_row_values_impl this row index_sequence_for.

(** [RowType operator*() const] *)
Definition operator_deref (this : Iterator) : M (list value) :=
  let row := default_value <$> Columns in
  obtain_row_values this row.

End Row.

(** [Iterator begin()] *)
Definition begin (this : QueryResult) : M Iterator :=
  Iterator_new (QueryResult_statement_ this) 0.

(** [Iterator end()] *)
Definition end_ (this : QueryResult) : M Iterator :=
  Iterator_new (QueryResult_statement_ this) POSITION_END.

(** [execute_query()]: a query result over the handle itself. *)
Definition execute_query (this : loc) : QueryResult :=
  {| QueryResult_statement_ := this |}.

(** ** Vocabulary of the statements *)

(** The engine's statement after [n] native steps. *)
Definition steps (n : nat) (st : sqlite3_stmt) : sqlite3_stmt :=
  Nat.iter n (λ st', (sqlite3_step st').2) st.

(** The statement yields exactly [n] result rows: [n] steps report a row and
    the one after them reports done. *)
Fixpoint yields_rows (st : sqlite3_stmt) (n : nat) : Prop :=
  match n with
  | O => (sqlite3_step st).1 = SQLITE_DONE
  | S n' => (sqlite3_step st).1 = SQLITE_ROW ∧ yields_rows (sqlite3_step st).2 n'
  end.

(** The world after [n] steps through the handle [p], which held [s]. *)
Definition stepped (n : nat) (p : loc) (s : SqliteStatementWrapper) (w : world) : world :=
  World (<[p := set_statement s (steps n (statement_ s))]> (heap w))
        (calls w ++ replicate n (call_step p)).

(** [operator++] applied [n] times over. *)
Fixpoint advance (n : nat) (it : Iterator) : M Iterator :=
  match n with
  | O => ret it
  | S n' => it' ← operator_pre_incr it; advance n' it'
  end.

(** The row the codec reads off a statement, for a row shape. *)
Definition current_row (Columns : list kind) (st : sqlite3_stmt) : list value :=
  imap (λ i k, column_value st i k) Columns.

(** [needle] occurs in [text]. *)
Definition embeds (needle text : string) : Prop :=
  ∃ before after, text = before +:+ needle +:+ after.

End Wrapper.

Arguments Return {_ A} a w.
Arguments Throw {_ A} e w.
Arguments Fault {_ A}.

(** ** Two engines to run the wrapper on *)

(** A statement over a fixed result: each step delivers the next outcome of
    the result, a row or an error code, and done once they are used up.
    Parameters are numbered from 1 up to [parameters]; a bind outside that
    range is rejected with SQLITE_RANGE. *)
Module Table.

Inductive outcome : Type :=
| Row (columns : list value)
| Failure (code : Z).

Record stmt : Type := Stmt {
  result_set : list outcome;
  position : nat;
  parameters : Z;
  bound : list (Z * value)
}.

Definition current (st : stmt) : list value :=
  match position st with
  | O => []
  | S n => match result_set st !! n with
           | Some (Row columns) => columns
           | _ => []
           end
  end.

Definition step (st : stmt) : Z * stmt :=
  let st' := Stmt (result_set st) (S (position st)) (parameters st) (bound st) in
  match result_set st !! position st with
  | Some (Row _) => (SQLITE_ROW, st')
  | Some (Failure code) => (code, st')
  | None => (SQLITE_DONE, st)
  end.

Definition reset (st : stmt) : Z * stmt :=
  (SQLITE_OK, Stmt (result_set st) 0 (parameters st) (bound st)).

Definition bind (st : stmt) (index : Z) (v : value) : Z * stmt :=
  if (1 <=? index) && (index <=? parameters st) then
    (SQLITE_OK, Stmt (result_set st) (position st) (parameters st) (bound st ++ [(index, v)]))
  else (SQLITE_RANGE, st).

Definition column_int (st : stmt) (index : nat) : Z :=
  match current st !! index with Some (VInt z) => z | _ => 0 end.
Definition column_int64 (st : stmt) (index : nat) : Z :=
  match current st !! index with Some (VTime z) => z | _ => 0 end.
Definition column_double (st : stmt) (index : nat) : double :=
  match current st !! index with Some (VDouble d) => d | _ => Binary64 0 end.
Definition column_text (st : stmt) (index : nat) : string :=
  match current st !! index with Some (VText t) => t | _ => "" end.
Definition column_blob (st : stmt) (index : nat) : list byte :=
  match current st !! index with Some (VBlob (Some b)) => b | _ => [] end.

Definition engine : Sqlite3 := {|
  sqlite3_stmt := stmt;
  sqlite3_step := step;
  sqlite3_reset := reset;
  sqlite3_bind := bind;
  sqlite3_column_int := column_int;
  sqlite3_column_int64 := column_int64;
  sqlite3_column_double := column_double;
  sqlite3_column_text := column_text;
  sqlite3_column_blob := column_blob;
  to_string_double := λ d, pretty (double_bits d)
|}.

(** A freshly prepared statement, held at address 1, nothing logged. *)
Definition handle (rows : list outcome) (params : Z) : @SqliteStatementWrapper engine :=
  @Build_SqliteStatementWrapper engine (Stmt rows 0 params []) 0 [].

Definition prepared (rows : list outcome) (params : Z) : @world engine :=
  @World engine {[ 1%positive := handle rows params ]} [].

(** The same statement [n] steps on, each step logged. *)
Definition on_row (rows : list outcome) (params : Z) (n : nat) : @world engine :=
  @World engine
    {[ 1%positive := @Build_SqliteStatementWrapper engine (Stmt rows n params []) 0 [] ]}
    (replicate n (call_step 1%positive)).

(** The result of a SELECT of two columns over three rows. *)
Definition three_rows : list outcome :=
  [Row [VInt 10; VText "a"]; Row [VInt 20; VText "b"]; Row [VInt 30; VText "c"]].

(** An INSERT of two parameters, an integer and a blob, both bound. *)
Definition insert_handle : @SqliteStatementWrapper engine :=
  @Build_SqliteStatementWrapper engine
    (Stmt [] 0 2 [(1, VInt 1); (2, VBlob (Some [x01; x02]))]) 2 [Some [x01; x02]].

Definition insert_bound : @world engine :=
  @World engine {[ 1%positive := insert_handle ]}
    [call_bind 1%positive 1 (VInt 1); call_bind 1%positive 2 (VBlob (Some [x01; x02]))].

(** A statement without parameters, after a bind the engine rejected. *)
Definition rejected_handle : @SqliteStatementWrapper engine :=
  @Build_SqliteStatementWrapper engine (Stmt [] 0 0 []) 1 [].

Definition rejected_bind : @world engine :=
  @World engine {[ 1%positive := rejected_handle ]} [call_bind 1%positive 1 (VInt 5)].

(** A result that delivers one row and then fails with SQLITE_BUSY (5). *)
Definition failing_rows : list outcome :=
  [Row [VInt 10; VText "a"]; Failure 5].

End Table.

(** A statement that counts: the state is the number of rows still to come,
    as for a query that generates a series.  Every row is a single integer
    column holding that number. *)
Module Series.

Definition step (left : N) : Z * N :=
  if (left =? 0)%N then (SQLITE_DONE, left) else (SQLITE_ROW, N.pred left).

Definition engine : Sqlite3 := {|
  sqlite3_stmt := N;
  sqlite3_step := step;
  sqlite3_reset := λ left, (SQLITE_OK, left);
  sqlite3_bind := λ left _ _, (SQLITE_RANGE, left);
  sqlite3_column_int := λ left _, Z.of_N left;
  sqlite3_column_int64 := λ left _, Z.of_N left;
  sqlite3_column_double := λ _ _, Binary64 0;
  sqlite3_column_text := λ _ _, "";
  sqlite3_column_blob := λ _ _, [];
  to_string_double := λ d, pretty (double_bits d)
|}.

(** A freshly prepared statement of [rows] rows, held at address 1. *)
Definition handle (rows : N) : @SqliteStatementWrapper engine :=
  @Build_SqliteStatementWrapper engine rows 0 [].

Definition prepared (rows : N) : @world engine :=
  @World engine {[ 1%positive := handle rows ]} [].

End Series.

(** * Properties *)

Section Properties.
Context `{Sqlite3}.

Ltac unfold_monad :=
  unfold mbind, M_bind, bindM, mret, M_ret, ret, throw, deref, store, log in *.

(** ** Machine integers *)

Lemma wrap_int_small (z : Z) : INT_MIN ≤ z ≤ INT_MAX → wrap_int z = z.
Proof.
  unfold wrap_int, INT_MIN, INT_MAX. intros Hz.
  rewrite Z.mod_small by lia. lia.
Qed.

Lemma int_incr_0 : int_incr 0 = 1.
Proof. reflexivity. Qed.

(** ** The monad *)

Lemma bindM_assoc {A B C} (m : M A) (f : A → M B) (g : B → M C) (w : world) :
  bindM (bindM m f) g w = bindM m (λ a, bindM (f a) g) w.
Proof. unfold bindM. destruct (m w); reflexivity. Qed.

Lemma bindM_ext {A B} (m m' : M A) (f : A → M B) (w : world) :
  m w = m' w → bindM m f w = bindM m' f w.
Proof. unfold bindM. intros ->. reflexivity. Qed.

(** ** step *)

(** One step through a handle: the engine's statement is stepped once, one
    call is logged, and the return code decides the outcome. *)
Lemma step_eq (p : loc) (s : SqliteStatementWrapper) (w : world) :
  heap w !! p = Some s →
  step p w =
    let return_code := (sqlite3_step (statement_ s)).1 in
    if return_code =? SQLITE_ROW then Return true (stepped 1 p s w)
    else if return_code =? SQLITE_DONE then Return false (stepped 1 p s w)
    else Throw (StepError return_code) (stepped 1 p s w).
Proof.
  intros Hs. unfold step, stepped, steps. unfold_monad. rewrite Hs. simpl.
  destruct (sqlite3_step (statement_ s)) as [return_code st]. simpl.
  destruct (return_code =? SQLITE_ROW); [reflexivity|].
  destruct (return_code =? SQLITE_DONE); reflexivity.
Qed.

Lemma step_row (p : loc) (s : SqliteStatementWrapper) (w : world) :
  heap w !! p = Some s → (sqlite3_step (statement_ s)).1 = SQLITE_ROW →
  step p w = Return true (stepped 1 p s w).
Proof. intros Hs Hrc. rewrite (step_eq p s w Hs). simpl. rewrite Hrc. reflexivity. Qed.

Lemma step_done (p : loc) (s : SqliteStatementWrapper) (w : world) :
  heap w !! p = Some s → (sqlite3_step (statement_ s)).1 = SQLITE_DONE →
  step p w = Return false (stepped 1 p s w).
Proof. intros Hs Hrc. rewrite (step_eq p s w Hs). simpl. rewrite Hrc. reflexivity. Qed.

Lemma stepped_lookup (n : nat) (p : loc) (s : SqliteStatementWrapper) (w : world) :
  heap (stepped n p s w) !! p = Some (set_statement s (steps n (statement_ s))).
Proof. unfold stepped. simpl. apply lookup_insert_eq. Qed.

Lemma steps_S (n : nat) (st : sqlite3_stmt) :
  steps (S n) st = (sqlite3_step (steps n st)).2.
Proof. reflexivity. Qed.

Lemma steps_S_first (n : nat) (st : sqlite3_stmt) :
  steps (S n) st = steps n (sqlite3_step st).2.
Proof.
  unfold steps. induction n as [|n IH]; [reflexivity|].
  simpl in *. rewrite IH. reflexivity.
Qed.

(** Stepping a world that was stepped [n] times gives the world stepped
    [n + 1] times. *)
Lemma stepped_stepped (n : nat) (p : loc) (s : SqliteStatementWrapper) (w : world) :
  stepped 1 p (set_statement s (steps n (statement_ s))) (stepped n p s w)
  = stepped (S n) p s w.
Proof.
  unfold stepped. cbn [heap calls set_statement statement_
    last_bound_parameter_index_ written_blobs_cache_]. f_equal.
  - rewrite insert_insert_eq. reflexivity.
  - rewrite <- app_assoc. f_equal. symmetry. apply replicate_S_end.
Qed.

Lemma yields_rows_row (n k : nat) (st : sqlite3_stmt) :
  yields_rows st n → (k < n)%nat → (sqlite3_step (steps k st)).1 = SQLITE_ROW.
Proof.
  revert n st. induction k as [|k IH]; intros n st Hy Hk.
  - destruct n; [lia|]. apply Hy.
  - destruct n as [|n]; [lia|]. destruct Hy as [_ Hy].
    rewrite steps_S_first. apply (IH n); [assumption|lia].
Qed.

Lemma yields_rows_done (n : nat) (st : sqlite3_stmt) :
  yields_rows st n → (sqlite3_step (steps n st)).1 = SQLITE_DONE.
Proof.
  revert st. induction n as [|n IH]; intros st Hy.
  - apply Hy.
  - destruct Hy as [_ Hy]. rewrite steps_S_first. apply IH, Hy.
Qed.

(** ** The iterator *)

Lemma wrap_int_incr (z : Z) : int_incr (wrap_int z) = wrap_int (z + 1).
Proof.
  unfold int_incr, wrap_int.
  replace ((z + 2147483648) `mod` 4294967296 - 2147483648 + 1 + 2147483648)
    with ((z + 2147483648) `mod` 4294967296 + 1) by lia.
  rewrite Z.add_mod_idemp_l by lia. do 2 f_equal. lia.
Qed.

Lemma wrap_int_not_end (z : Z) : 0 ≤ z < 4294967295 → wrap_int z ≠ POSITION_END.
Proof.
  unfold wrap_int, POSITION_END. intros Hz.
  destruct (Z_lt_le_dec z 2147483648) as [Hlt|Hge].
  - rewrite Z.mod_small by lia. lia.
  - replace (z + 2147483648) with (z - 2147483648 + 1 * 4294967296) by lia.
    rewrite Z.mod_add by lia. rewrite Z.mod_small by lia. lia.
Qed.

Lemma operator_pre_incr_row (it : Iterator) (s : SqliteStatementWrapper) (w : world) :
  heap w !! Iterator_statement_ it = Some s →
  next_row_idx_ it ≠ POSITION_END →
  (sqlite3_step (statement_ s)).1 = SQLITE_ROW →
  operator_pre_incr it w =
    Return {| Iterator_statement_ := Iterator_statement_ it;
              next_row_idx_ := int_incr (next_row_idx_ it) |}
           (stepped 1 (Iterator_statement_ it) s w).
Proof.
  intros Hs Hidx Hrc. unfold operator_pre_incr.
  apply Z.eqb_neq in Hidx. rewrite Hidx. simpl.
  unfold mbind, M_bind, bindM. rewrite (step_row _ s w Hs Hrc). reflexivity.
Qed.

Lemma operator_pre_incr_done (it : Iterator) (s : SqliteStatementWrapper) (w : world) :
  heap w !! Iterator_statement_ it = Some s →
  next_row_idx_ it ≠ POSITION_END →
  (sqlite3_step (statement_ s)).1 = SQLITE_DONE →
  operator_pre_incr it w =
    Return {| Iterator_statement_ := Iterator_statement_ it;
              next_row_idx_ := POSITION_END |}
           (stepped 1 (Iterator_statement_ it) s w).
Proof.
  intros Hs Hidx Hrc. unfold operator_pre_incr.
  apply Z.eqb_neq in Hidx. rewrite Hidx. simpl.
  unfold mbind, M_bind, bindM. rewrite (step_done _ s w Hs Hrc). reflexivity.
Qed.

(** At the end sentinel the increment throws and touches nothing: the world
    it throws in is the world it was called in. *)
Lemma operator_pre_incr_end (it : Iterator) (w : world) :
  next_row_idx_ it = POSITION_END →
  operator_pre_incr it w =
    Throw (CursorError "Cannot increment result iterator beyond result set!") w.
Proof. intros Hidx. unfold operator_pre_incr. rewrite Hidx. reflexivity. Qed.

Lemma advance_S_end (n : nat) (it : Iterator) (w : world) :
  advance (S n) it w = bindM (advance n it) operator_pre_incr w.
Proof.
  revert it w. induction n as [|n IH]; intros it w.
  - simpl. unfold_monad. destruct (operator_pre_incr it w); reflexivity.
  - specialize (IH) as IH'. cbn [advance] in IH' |- *.
    unfold mbind, M_bind, bindM in IH' |- *.
    destruct (operator_pre_incr it w) as [it' w'| |]; [|reflexivity..].
    apply IH'.
Qed.

(** The iterator [begin] returns, advanced [k] times over a statement that
    has more than [k] rows: every step so far reported a row, and the index
    is the wrapped count of the steps. *)
Lemma begin_advance (qr : QueryResult) (s : SqliteStatementWrapper) (w : world) (n k : nat) :
  heap w !! QueryResult_statement_ qr = Some s →
  yields_rows (statement_ s) n →
  (k < n)%nat →
  Z.of_nat k < 4294967295 →
  bindM (begin qr) (advance k) w =
    Return {| Iterator_statement_ := QueryResult_statement_ qr;
              next_row_idx_ := wrap_int (Z.of_nat k + 1) |}
           (stepped (S k) (QueryResult_statement_ qr) s w).
Proof.
  intros Hs Hy. induction k as [|k IH]; intros Hk Hbound.
  - unfold bindM, begin, Iterator_new. simpl.
    unfold mbind, M_bind, bindM.
    rewrite (step_row _ s w Hs (yields_rows_row n 0 _ Hy Hk)). reflexivity.
  - specialize (IH ltac:(lia) ltac:(lia)).
    unfold bindM in IH |- *.
    destruct (begin qr w) as [it0 w0| |]; [|discriminate IH..].
    rewrite advance_S_end. unfold bindM. rewrite IH.
    rewrite (operator_pre_incr_row _ (set_statement s (steps (S k) (statement_ s)))).
    + cbn [Iterator_statement_ next_row_idx_]. rewrite stepped_stepped.
      rewrite wrap_int_incr. do 3 f_equal. lia.
    + apply stepped_lookup.
    + cbn [next_row_idx_]. apply wrap_int_not_end. lia.
    + cbn [statement_ set_statement]. apply (yields_rows_row n); [assumption|lia].
Qed.

Lemma begin_advance_S (qr : QueryResult) (k : nat) (w : world) :
  bindM (begin qr) (advance (S k)) w
  = bindM (bindM (begin qr) (advance k)) operator_pre_incr w.
Proof.
  rewrite bindM_assoc. unfold bindM at 1 2.
  destruct (begin qr w) as [it0 w0| |]; [|reflexivity..].
  apply advance_S_end.
Qed.

(** The iterator [begin] returns, advanced as many times as the statement
    has rows, is at the end sentinel, and a step was made for every row and
    one more. *)
Lemma begin_advance_all (qr : QueryResult) (s : SqliteStatementWrapper) (w : world) (n : nat) :
  heap w !! QueryResult_statement_ qr = Some s →
  yields_rows (statement_ s) n →
  Z.of_nat n < 4294967295 →
  bindM (begin qr) (advance n) w =
    Return {| Iterator_statement_ := QueryResult_statement_ qr;
              next_row_idx_ := POSITION_END |}
           (stepped (S n) (QueryResult_statement_ qr) s w).
Proof.
  intros Hs Hy Hbound. destruct n as [|m].
  - unfold bindM, begin, Iterator_new. simpl.
    unfold mbind, M_bind, bindM.
    rewrite (step_done _ s w Hs (yields_rows_done 0 _ Hy)). reflexivity.
  - rewrite begin_advance_S. unfold bindM at 1.
    rewrite (begin_advance qr s w (S m) m Hs Hy) by lia.
    rewrite (operator_pre_incr_done _ (set_statement s (steps (S m) (statement_ s)))).
    + cbn [Iterator_statement_]. rewrite stepped_stepped. reflexivity.
    + apply stepped_lookup.
    + cbn [next_row_idx_]. apply wrap_int_not_end. lia.
    + cbn [statement_ set_statement]. apply yields_rows_done, Hy.
Qed.

(** Within the range of the index (fewer than 2^32 - 1 rows) a row sequence
    over [n] rows is not at the end sentinel after fewer than [n] advances,
    is at it after [n], and the advance after that throws without a step. *)
Lemma row_sequence_within_index_range
    (qr : QueryResult) (s : SqliteStatementWrapper) (w : world) (n : nat) :
  heap w !! QueryResult_statement_ qr = Some s →
  yields_rows (statement_ s) n →
  Z.of_nat n < 4294967295 →
  (∀ k, (k < n)%nat →
     ∃ it w', bindM (begin qr) (advance k) w = Return it w'
              ∧ next_row_idx_ it ≠ POSITION_END) ∧
  (∃ it w', bindM (begin qr) (advance n) w = Return it w'
            ∧ next_row_idx_ it = POSITION_END
            ∧ calls w' = calls w ++ replicate (S n) (call_step (QueryResult_statement_ qr))
            ∧ operator_pre_incr it w' =
                Throw (CursorError "Cannot increment result iterator beyond result set!") w').
Proof.
  intros Hs Hy Hbound. split.
  - intros k Hk. eexists _, _. split.
    + apply (begin_advance qr s w n k Hs Hy Hk). lia.
    + cbn [next_row_idx_]. apply wrap_int_not_end. lia.
  - eexists _, _. split; [apply (begin_advance_all qr s w n Hs Hy Hbound)|].
    split; [reflexivity|]. split; [reflexivity|].
    apply operator_pre_incr_end. reflexivity.
Qed.

(** Past that range the index wraps around onto the end sentinel: over a
    statement of 2^32 - 1 rows or more, the iterator is at the end sentinel
    after 2^32 - 2 advances, on the row the last of 2^32 - 1 steps
    delivered. *)
Lemma begin_advance_wraps
    (qr : QueryResult) (s : SqliteStatementWrapper) (w : world) (n k : nat) :
  heap w !! QueryResult_statement_ qr = Some s →
  yields_rows (statement_ s) n →
  Z.of_nat k = 4294967294 →
  (k < n)%nat →
  bindM (begin qr) (advance k) w =
    Return {| Iterator_statement_ := QueryResult_statement_ qr;
              next_row_idx_ := POSITION_END |}
           (stepped (S k) (QueryResult_statement_ qr) s w).
Proof.
  intros Hs Hy Hk Hn.
  rewrite (begin_advance qr s w n k Hs Hy Hn) by lia.
  rewrite Hk. reflexivity.
Qed.

Lemma begin_on_a_row (qr : QueryResult) (s : SqliteStatementWrapper) (w : world) :
  heap w !! QueryResult_statement_ qr = Some s →
  (sqlite3_step (statement_ s)).1 = SQLITE_ROW →
  begin qr w = Return {| Iterator_statement_ := QueryResult_statement_ qr;
                         next_row_idx_ := 1 |}
                      (stepped 1 (QueryResult_statement_ qr) s w)
  ∧ calls (stepped 1 (QueryResult_statement_ qr) s w)
    = calls w ++ [call_step (QueryResult_statement_ qr)].
Proof.
  intros Hs Hrc. split; [|reflexivity].
  unfold begin, Iterator_new. simpl. unfold mbind, M_bind, bindM.
  rewrite (step_row _ s w Hs Hrc). reflexivity.
Qed.

(** C2.  Constructing the begin iterator steps the handle exactly once, then
    and there: one native step is logged and the statement is the stepped
    one.  If that step reports a row the position is a row index (1, not the
    end sentinel); if it reports no rows the position is the end sentinel; on
    any other code the construction throws, after that same single step. *)
Theorem begin_steps_once (qr : QueryResult) (s : SqliteStatementWrapper) (w : world) :
  heap w !! QueryResult_statement_ qr = Some s →
  let p := QueryResult_statement_ qr in
  let return_code := (sqlite3_step (statement_ s)).1 in
  let w' := World (<[p := set_statement s (sqlite3_step (statement_ s)).2]> (heap w))
                  (calls w ++ [call_step p]) in
  (return_code = SQLITE_ROW →
     begin qr w = Return {| Iterator_statement_ := p; next_row_idx_ := 1 |} w'
     ∧ 1 ≠ POSITION_END) ∧
  (return_code = SQLITE_DONE →
     begin qr w = Return {| Iterator_statement_ := p; next_row_idx_ := POSITION_END |} w') ∧
  (return_code ≠ SQLITE_ROW → return_code ≠ SQLITE_DONE →
     begin qr w = Throw (StepError return_code) w').
Proof.
  intros Hs p return_code w'.
  assert (Hw' : w' = stepped 1 p s w) by reflexivity.
  unfold begin, Iterator_new. simpl. unfold mbind, M_bind, bindM.
  fold p. rewrite (step_eq p s w Hs). fold return_code. rewrite <- Hw'. simpl.
  split; [|split].
  - intros ->. simpl. split; [reflexivity|discriminate].
  - intros ->. reflexivity.
  - intros Hrow Hdone.
    apply Z.eqb_neq in Hrow, Hdone. rewrite Hrow, Hdone. reflexivity.
Qed.

(** C10.  Constructing an iterator at the end sentinel, as [end] does, never
    steps the handle: it returns in the world it was called in, with the
    store and the log of native calls as they were, whatever the store
    holds. *)
Theorem end_leaves_handle_untouched (qr : QueryResult) (w : world) :
  end_ qr w = Return {| Iterator_statement_ := QueryResult_statement_ qr;
                        next_row_idx_ := POSITION_END |} w
  ∧ Iterator_new (QueryResult_statement_ qr) POSITION_END w
    = Return {| Iterator_statement_ := QueryResult_statement_ qr;
                next_row_idx_ := POSITION_END |} w.
Proof. split; reflexivity. Qed.

(** C4.  Two cursor positions are equal iff they reference the same
    statement handle and either hold the same row count or are both at the
    end sentinel; the inequality operator is the negation of the equality. *)
Theorem operator_eq_iff (a b : Iterator) :
  (operator_eq a b = true ↔
     Iterator_statement_ a = Iterator_statement_ b ∧
     ((next_row_idx_ a ≠ POSITION_END ∧ next_row_idx_ b ≠ POSITION_END
       ∧ next_row_idx_ a = next_row_idx_ b)
      ∨ (next_row_idx_ a = POSITION_END ∧ next_row_idx_ b = POSITION_END)))
  ∧ operator_ne a b = negb (operator_eq a b).
Proof.
  split; [|reflexivity].
  unfold operator_eq. rewrite andb_true_iff, bool_decide_eq_true, Z.eqb_eq.
  split.
  - intros [Hp Hidx]. split; [assumption|].
    destruct (decide (next_row_idx_ a = POSITION_END)) as [Ha|Ha].
    + right. split; congruence.
    + left. repeat split; congruence.
  - intros [Hp [(_ & _ & Hidx)|[Ha Hb]]]; split; congruence.
Qed.

(** Equality never holds across handles, the end sentinel included: the end
    iterators of two distinct statements are different positions. *)
Lemma end_iterators_of_distinct_handles_differ (p q : loc) :
  p ≠ q →
  operator_eq {| Iterator_statement_ := p; next_row_idx_ := POSITION_END |}
              {| Iterator_statement_ := q; next_row_idx_ := POSITION_END |} = false.
Proof.
  intros Hpq. unfold operator_eq. cbn [Iterator_statement_ next_row_idx_].
  rewrite bool_decide_eq_false_2 by exact Hpq. reflexivity.
Qed.

(** ** Dereferencing *)

Lemma obtain_column_value_eq (p : loc) (s : SqliteStatementWrapper) (w : world)
    (index : nat) (k : kind) :
  heap w !! p = Some s →
  obtain_column_value p index k w =
    Return (column_value (statement_ s) index k)
           (World (heap w) (calls w ++ [call_column p index k])).
Proof. intros Hs. unfold obtain_column_value. unfold_monad. rewrite Hs. reflexivity. Qed.

(** The recursion over the index sequence, entered at index [n] with [m]
    indices to go: the members below [n] are kept, those from [n] on are
    read off the statement, lowest index first. *)
Lemma obtain_row_values_impl_seq (Columns : list kind) (it : Iterator)
    (s : SqliteStatementWrapper) (m n : nat) (row : list value) (w : world) :
  heap w !! Iterator_statement_ it = Some s →
  (n + m)%nat = length Columns →
  length row = length Columns →
  obtain_row_values_impl Columns it row (seq n m) w =
    Return (take n row ++ imap (λ i k, column_value (statement_ s) (n + i) k) (drop n Columns))
           (World (heap w)
              (calls w ++ imap (λ i k, call_column (Iterator_statement_ it) (n + i) k)
                               (drop n Columns))).
Proof.
  revert n row w. induction m as [|m IH]; intros n row w Hs Hn Hrow.
  - rewrite drop_ge by lia. rewrite take_ge by lia. simpl.
    rewrite !app_nil_r. destruct w. reflexivity.
  - destruct (lookup_lt_is_Some_2 Columns n ltac:(lia)) as [k Hk].
    destruct (lookup_lt_is_Some_2 row n ltac:(lia)) as [v0 Hv0].
    cbn [seq obtain_row_values_impl]. rewrite Hk.
    unfold mbind, M_bind, bindM.
    rewrite (obtain_column_value_eq _ s w n k Hs).
    rewrite (IH (S n)); cbn [heap calls].
    + rewrite (drop_S Columns k n Hk). rewrite !imap_cons.
      rewrite (take_S_r (<[n:=column_value (statement_ s) n k]> row) n
                 (column_value (statement_ s) n k))
        by (apply list_lookup_insert_eq; lia).
      rewrite take_insert_ge by lia.
      rewrite <- !app_assoc. cbn [app]. rewrite Nat.add_0_r.
      f_equal; [f_equal; f_equal|f_equal; f_equal; f_equal].
      * apply imap_ext. intros i x _. simpl. f_equal. lia.
      * apply imap_ext. intros i x _. simpl. f_equal. lia.
    + assumption.
    + lia.
    + rewrite length_insert. assumption.
Qed.

Lemma operator_deref_eq (Columns : list kind) (it : Iterator)
    (s : SqliteStatementWrapper) (w : world) :
  heap w !! Iterator_statement_ it = Some s →
  operator_deref Columns it w =
    Return (current_row Columns (statement_ s))
           (World (heap w)
              (calls w ++ imap (λ i k, call_column (Iterator_statement_ it) i k) Columns)).
Proof.
  intros Hs. unfold operator_deref, obtain_row_values, index_sequence_for.
  rewrite (obtain_row_values_impl_seq Columns it s (length Columns) 0 _ w Hs);
    [reflexivity|reflexivity|apply length_fmap].
Qed.

(** C5.  Dereferencing assembles the row by reading every declared column
    through the codec, column 0 first and in ascending order: the native
    calls it makes are one column read per declared column, in that order,
    and the i-th member of the row is column i.  It makes no step: the store,
    and with it the statement's cursor, is as it was before. *)
Theorem operator_deref_reads_columns_in_order (Columns : list kind) (it : Iterator)
    (s : SqliteStatementWrapper) (w : world) :
  heap w !! Iterator_statement_ it = Some s →
  ∃ row w',
    operator_deref Columns it w = Return row w'
    ∧ row = imap (λ i k, column_value (statement_ s) i k) Columns
    ∧ (∀ i k, Columns !! i = Some k → row !! i = Some (column_value (statement_ s) i k))
    ∧ length row = length Columns
    ∧ calls w' = calls w ++ imap (λ i k, call_column (Iterator_statement_ it) i k) Columns
    ∧ heap w' = heap w.
Proof.
  intros Hs. eexists _, _. split; [apply (operator_deref_eq Columns it s w Hs)|].
  unfold current_row. cbn [heap calls]. split; [reflexivity|].
  split; [|split; [apply length_imap|split; reflexivity]].
  intros i k Hk. rewrite list_lookup_imap, Hk. reflexivity.
Qed.

(** ** Post-increment *)

(** C8.  For an iterator not at the end sentinel, post-increment returns a
    copy with the old index, and steps the shared statement.  Dereferencing
    that copy afterwards reads the statement as the step left it, so it
    yields the row the cursor has advanced to, the same row the incremented
    iterator yields, and not the row that was current at the call. *)
Theorem post_increment_copy_reads_advanced_row (Columns : list kind) (it : Iterator)
    (s : SqliteStatementWrapper) (w : world) :
  heap w !! Iterator_statement_ it = Some s →
  next_row_idx_ it ≠ POSITION_END →
  (sqlite3_step (statement_ s)).1 = SQLITE_ROW ∨ (sqlite3_step (statement_ s)).1 = SQLITE_DONE →
  ∃ old_value this' w' w'',
    operator_deref Columns it w
      = Return (current_row Columns (statement_ s))
               (World (heap w)
                  (calls w ++ imap (λ i k, call_column (Iterator_statement_ it) i k) Columns))
    ∧ operator_post_incr it w = Return (old_value, this') w'
    ∧ old_value = it
    ∧ heap w' !! Iterator_statement_ it
        = Some (set_statement s (sqlite3_step (statement_ s)).2)
    ∧ operator_deref Columns old_value w'
        = Return (current_row Columns (sqlite3_step (statement_ s)).2) w''
    ∧ operator_deref Columns this' w'
        = Return (current_row Columns (sqlite3_step (statement_ s)).2) w''.
Proof.
  intros Hs Hidx Hrc.
  assert (Hpost : ∃ this', operator_post_incr it w
                    = Return (it, this') (stepped 1 (Iterator_statement_ it) s w)
                  ∧ Iterator_statement_ this' = Iterator_statement_ it).
  { unfold operator_post_incr. unfold mbind, M_bind, bindM.
    destruct Hrc as [Hrc|Hrc].
    - rewrite (operator_pre_incr_row it s w Hs Hidx Hrc). eexists. split; reflexivity.
    - rewrite (operator_pre_incr_done it s w Hs Hidx Hrc). eexists. split; reflexivity. }
  destruct Hpost as (this' & Hpost & Hthis').
  eexists it, this', _, _.
  split; [apply (operator_deref_eq Columns it s w Hs)|].
  split; [exact Hpost|]. split; [reflexivity|].
  split; [apply stepped_lookup|].
  split.
  - apply (operator_deref_eq Columns it _ _ (stepped_lookup 1 _ s w)).
  - rewrite (operator_deref_eq Columns this' (set_statement s (steps 1 (statement_ s)))).
    + rewrite Hthis'. reflexivity.
    + rewrite Hthis'. apply stepped_lookup.
Qed.

(** ** begin, called again *)

(** Whatever its outcome, [begin] makes one native step. *)
Lemma begin_outcome (qr : QueryResult) (s : SqliteStatementWrapper) (w : world) :
  heap w !! QueryResult_statement_ qr = Some s →
  (∃ it, begin qr w = Return it (stepped 1 (QueryResult_statement_ qr) s w))
  ∨ (∃ e, begin qr w = Throw e (stepped 1 (QueryResult_statement_ qr) s w)).
Proof.
  intros Hs. unfold begin, Iterator_new. simpl. unfold mbind, M_bind, bindM.
  rewrite (step_eq _ s w Hs). simpl.
  destruct (_ =? SQLITE_ROW); [left; eexists; reflexivity|].
  destruct (_ =? SQLITE_DONE); [left; eexists; reflexivity|].
  right; eexists; reflexivity.
Qed.

(** C9, as the code has it.  Every call to [begin] steps the shared native
    cursor once, whatever comes of it; so two calls on one row sequence make
    two steps and consume two rows when the statement has them.  Each call
    starts its count at zero: the second begin iterator has the same logical
    position as the first, 1, and compares equal to it, while the statement
    they share is two steps on. *)
Theorem begin_twice_consumes_two_rows (qr : QueryResult)
    (s : SqliteStatementWrapper) (w : world) :
  heap w !! QueryResult_statement_ qr = Some s →
  (sqlite3_step (statement_ s)).1 = SQLITE_ROW →
  (sqlite3_step (sqlite3_step (statement_ s)).2).1 = SQLITE_ROW →
  let p := QueryResult_statement_ qr in
  ((∃ it, begin qr w = Return it (stepped 1 p s w))
   ∨ (∃ e, begin qr w = Throw e (stepped 1 p s w)))
  ∧ calls (stepped 1 p s w) = calls w ++ [call_step p]
  ∧ ∃ it1 w1 it2 w2,
      begin qr w = Return it1 w1
      ∧ begin qr w1 = Return it2 w2
      ∧ calls w2 = calls w ++ [call_step p; call_step p]
      ∧ heap w2 !! p
          = Some (set_statement s (sqlite3_step (sqlite3_step (statement_ s)).2).2)
      ∧ next_row_idx_ it1 = 1
      ∧ next_row_idx_ it2 = 1
      ∧ operator_eq it1 it2 = true.
Proof.
  intros Hs Hrow1 Hrow2 p.
  split; [apply (begin_outcome qr s w Hs)|]. split; [reflexivity|].
  destruct (begin_on_a_row qr s w Hs Hrow1) as [H1 _].
  destruct (begin_on_a_row qr (set_statement s (steps 1 (statement_ s)))
              (stepped 1 p s w) (stepped_lookup 1 p s w) Hrow2) as [H2 _].
  eexists _, _, _, _. split; [exact H1|]. split; [exact H2|].
  rewrite stepped_stepped. split; [reflexivity|].
  split; [apply stepped_lookup|]. split; [reflexivity|]. split; [reflexivity|].
  unfold operator_eq. cbn [Iterator_statement_ next_row_idx_].
  rewrite bool_decide_eq_true_2 by reflexivity. reflexivity.
Qed.

(** ** execute_and_reset *)

Lemma reset_eq (p : loc) (s : SqliteStatementWrapper) (w : world) :
  heap w !! p = Some s →
  reset p w =
    Return p (World (<[p := {| statement_ := (sqlite3_reset (statement_ s)).2;
                               last_bound_parameter_index_ := 0;
                               written_blobs_cache_ := [] |}]> (heap w))
                    (calls w ++ [call_reset p])).
Proof.
  intros Hs. unfold reset. unfold_monad. rewrite Hs.
  destruct (sqlite3_reset (statement_ s)) as [return_code st]. reflexivity.
Qed.

(** When the step reports a row or done, [execute_and_reset] returns. *)
Lemma execute_and_reset_returns (p : loc) (s : SqliteStatementWrapper) (w : world) :
  heap w !! p = Some s →
  (sqlite3_step (statement_ s)).1 = SQLITE_ROW ∨ (sqlite3_step (statement_ s)).1 = SQLITE_DONE →
  ∃ w', execute_and_reset p w = Return p w'.
Proof.
  intros Hs Hrc. unfold execute_and_reset. unfold mbind, M_bind, bindM.
  destruct Hrc as [Hrc|Hrc];
    [rewrite (step_row p s w Hs Hrc)|rewrite (step_done p s w Hs Hrc)];
    rewrite (reset_eq p _ _ (stepped_lookup 1 p s w)); eexists; reflexivity.
Qed.

(** C7.  After a successful [execute_and_reset] the handle's parameter index
    counter is zero and its blob cache is empty. *)
Theorem execute_and_reset_clears (p q : loc) (w w' : world) :
  execute_and_reset p w = Return q w' →
  ∃ s', heap w' !! p = Some s'
        ∧ last_bound_parameter_index_ s' = 0
        ∧ written_blobs_cache_ s' = [].
Proof.
  unfold execute_and_reset. unfold mbind, M_bind, bindM. intros Hrun.
  destruct (heap w !! p) as [s|] eqn:Hs.
  - rewrite (step_eq p s w Hs) in Hrun. simpl in Hrun.
    destruct (_ =? SQLITE_ROW);
      [|destruct (_ =? SQLITE_DONE); [|discriminate Hrun]];
      rewrite (reset_eq p _ _ (stepped_lookup 1 p s w)) in Hrun;
      injection Hrun as _ <-; eexists; (split; [apply lookup_insert_eq|split; reflexivity]).
  - unfold step in Hrun. unfold_monad. rewrite Hs in Hrun. discriminate Hrun.
Qed.

(** ** The variadic bind *)

Section Variadic.
(** Any single-value bind will do: the variadic form is defined from it. *)
Variable single : loc → value → M loc.
Variable this : loc.

Lemma bind_variadic_unfold (value1 value2 : value) (values : list value) (w : world) :
  bind_variadic single this value1 value2 values w
  = bindM (single this value1) (λ _, bind_rest single this value2 values) w.
Proof. destruct values; reflexivity. Qed.

Lemma foldl_bind_ext (values : list value) (m m' : M loc) :
  (∀ w, m w = m' w) →
  ∀ w, foldl (λ (so_far : M loc) (v : value), bindM so_far (λ _, single this v)) m values w
     = foldl (λ (so_far : M loc) (v : value), bindM so_far (λ _, single this v)) m' values w.
Proof.
  revert m m'. induction values as [|v values IH]; intros m m' Hm w.
  - apply Hm.
  - simpl. apply IH. intros w0. apply bindM_ext, Hm.
Qed.

(** Running the sequence so far and then binding the remaining values one
    by one is running it and then the rest of the variadic form. *)
Lemma foldl_bind_rest (values : list value) (m : M loc) (v : value) (w : world) :
  foldl (λ (so_far : M loc) (v : value), bindM so_far (λ _, single this v))
        (bindM m (λ _, single this v)) values w
  = bindM m (λ _, bind_rest single this v values) w.
Proof.
  revert m v w. induction values as [|v3 values IH]; intros m v w.
  - reflexivity.
  - cbn [foldl]. rewrite IH. rewrite bindM_assoc.
    unfold bindM at 1 3. destruct (m w) as [a w'| |]; [|reflexivity..].
    symmetry. apply bind_variadic_unfold.
Qed.

(** C6.  For two or more values the variadic bind is the sequence of single
    binds applied to the same values left to right: from every world both
    end in the same result, be it the returned handle or the exception
    thrown, with the same store and log. *)
Theorem bind_variadic_is_sequence (value1 value2 : value) (values : list value) (w : world) :
  bind_variadic single this value1 value2 values w
  = bind_in_sequence single this (value1 :: value2 :: values) w.
Proof.
  rewrite bind_variadic_unfold. unfold bind_in_sequence. cbn [foldl].
  symmetry. apply foldl_bind_rest.
Qed.

End Variadic.

(** ** The bind-error check *)

Lemma append_assoc (s1 s2 s3 : string) : (s1 +:+ s2) +:+ s3 = s1 +:+ s2 +:+ s3.
Proof.
  induction s1 as [|c s1 IH]; [reflexivity|].
  change (String c ((s1 +:+ s2) +:+ s3) = String c (s1 +:+ s2 +:+ s3)).
  f_equal. exact IH.
Qed.

Lemma check_and_report_bind_error_string_eq
    (this : loc) (s : SqliteStatementWrapper) (return_code : Z) (value : string) (w : world) :
  heap w !! this = Some s →
  check_and_report_bind_error_string this return_code value w =
    if return_code =? SQLITE_OK then Return tt w
    else Throw (BindError ("SQLite error when binding parameter " +:+
                  to_string (last_bound_parameter_index_ s) +:+ " to value '" +:+ value +:+
                  "'. Return code: " +:+ to_string return_code)) w.
Proof.
  intros Hs. unfold check_and_report_bind_error_string. unfold_monad. rewrite Hs.
  destruct (return_code =? SQLITE_OK); reflexivity.
Qed.

(** C3.  The bind-error check throws BindError iff the return code is not
    the success code.  When it throws, the message embeds the handle's last
    bound parameter index and the string form of the value, and the world is
    the one it was called in; on the success code it returns in the world it
    was called in.  This holds of the overload taking the value as a string
    and of the template rendering the value with to_string. *)
Theorem check_and_report_bind_error_iff {T} `{ToString T}
    (this : loc) (s : SqliteStatementWrapper) (return_code : Z)
    (text : string) (value : T) (w : world) :
  heap w !! this = Some s →
  ((return_code ≠ SQLITE_OK →
      ∃ what, check_and_report_bind_error_string this return_code text w
                = Throw (BindError what) w
              ∧ embeds (to_string (last_bound_parameter_index_ s)) what
              ∧ embeds text what)
   ∧ (return_code = SQLITE_OK →
        check_and_report_bind_error_string this return_code text w = Return tt w)
   ∧ ((∃ e w', check_and_report_bind_error_string this return_code text w = Throw e w')
      ↔ return_code ≠ SQLITE_OK))
  ∧
  ((return_code ≠ SQLITE_OK →
      ∃ what, check_and_report_bind_error this return_code value w
                = Throw (BindError what) w
              ∧ embeds (to_string (last_bound_parameter_index_ s)) what
              ∧ embeds (to_string value) what)
   ∧ (return_code = SQLITE_OK →
        check_and_report_bind_error this return_code value w = Return tt w)
   ∧ ((∃ e w', check_and_report_bind_error this return_code value w = Throw e w')
      ↔ return_code ≠ SQLITE_OK)).
Proof.
  intros Hs.
  assert (Hstring : ∀ text0,
    (return_code ≠ SQLITE_OK →
       ∃ what, check_and_report_bind_error_string this return_code text0 w
                 = Throw (BindError what) w
               ∧ embeds (to_string (last_bound_parameter_index_ s)) what
               ∧ embeds text0 what)
    ∧ (return_code = SQLITE_OK →
         check_and_report_bind_error_string this return_code text0 w = Return tt w)
    ∧ ((∃ e w', check_and_report_bind_error_string this return_code text0 w = Throw e w')
       ↔ return_code ≠ SQLITE_OK)).
  { intros text0. rewrite (check_and_report_bind_error_string_eq this s _ _ w Hs).
    destruct (Z.eqb_spec return_code SQLITE_OK) as [Hok|Hko].
    - split; [intros Hne; contradiction|]. split; [reflexivity|].
      split; [intros (e & w' & Hthrow); discriminate Hthrow|intros Hne; contradiction].
    - split; [|split; [intros Hok; contradiction|]].
      + intros _. eexists. split; [reflexivity|]. split.
        * eexists _, _. reflexivity.
        * exists ("SQLite error when binding parameter " +:+
                  to_string (last_bound_parameter_index_ s) +:+ " to value '"),
                 ("'. Return code: " +:+ to_string return_code).
          rewrite !append_assoc. reflexivity.
      + split; [intros _; assumption|intros _; eexists _, _; reflexivity]. }
  split; [apply Hstring|]. unfold check_and_report_bind_error. apply Hstring.
Qed.

End Properties.

(** * The properties on concrete statements *)

Section SeriesRuns.
#[local] Existing Instance Series.engine.

Lemma series_yields_rows (n : N) : yields_rows n (N.to_nat n).
Proof.
  induction n as [|n IH] using N.peano_ind.
  - reflexivity.
  - rewrite N2Nat.inj_succ. cbn [yields_rows sqlite3_step Series.engine].
    unfold Series.step. destruct (N.eqb_spec (N.succ n) 0) as [Hz|_]; [lia|].
    cbn [fst snd]. rewrite N.pred_succ. split; [reflexivity|exact IH].
Qed.

Lemma series_steps (k : nat) (n : N) :
  (N.of_nat k ≤ n)%N → steps k n = (n - N.of_nat k)%N.
Proof.
  induction k as [|k IH]; intros Hk.
  - unfold steps. simpl. lia.
  - rewrite steps_S, IH by lia. cbn [sqlite3_step Series.engine].
    unfold Series.step. destruct (N.eqb_spec (n - N.of_nat k) 0) as [Hz|_]; [lia|].
    cbn [snd]. lia.
Qed.

(** C1, where the code departs from it.  Over a statement of 4294967296
    rows the iterator obtained from begin is at the end sentinel after
    4294967294 advances: the index, an int, has wrapped around onto -1.  The
    statement still has a row to deliver, and the next advance throws rather
    than step for it. *)
Theorem row_sequence_index_wraps_onto_end :
  let qr := execute_query 1%positive in
  let w := Series.prepared 4294967296 in
  yields_rows 4294967296%N (N.to_nat 4294967296)
  ∧ ∃ it w',
      bindM (begin qr) (advance (N.to_nat 4294967294)) w = Return it w'
      ∧ next_row_idx_ it = POSITION_END
      ∧ statement_ <$> heap w' !! 1%positive = Some 1%N
      ∧ operator_pre_incr it w' =
          Throw (CursorError "Cannot increment result iterator beyond result set!") w'.
Proof.
  intros qr w. split; [apply series_yields_rows|].
  remember (N.to_nat 4294967294) as k eqn:Hk.
  assert (Hk' : Z.of_nat k = 4294967294) by (subst k; rewrite N_nat_Z; reflexivity).
  assert (Hlt : (k < N.to_nat 4294967296)%nat).
  { apply Nat2Z.inj_lt. rewrite Hk', N_nat_Z. reflexivity. }
  eexists _, _. split.
  - apply (begin_advance_wraps qr (Series.handle 4294967296) w (N.to_nat 4294967296) k);
      [reflexivity|apply series_yields_rows|exact Hk'|exact Hlt].
  - split; [reflexivity|]. split; [|apply operator_pre_incr_end; reflexivity].
    rewrite stepped_lookup. cbn [fmap option_fmap option_map statement_ set_statement].
    change (statement_ (Series.handle 4294967296)) with 4294967296%N.
    f_equal. rewrite series_steps by lia. lia.
Qed.

End SeriesRuns.


Section TableRuns.
#[local] Existing Instance Table.engine.

(** The scenarios of the specification, run. *)

Example bind_rejected_reports_index_1 :
  bind 1%positive (VInt 5) (Table.prepared [] 0)
  = Throw (BindError "SQLite error when binding parameter 1 to value '5'. Return code: 25")
          Table.rejected_bind.
Proof. vm_compute. reflexivity. Qed.

Example bind_variadic_then_execute :
  bind_variadic bind 1%positive (VInt 1) (VBlob (Some [x01; x02])) [] (Table.prepared [] 2)
  = Return 1%positive Table.insert_bound.
Proof. vm_compute. reflexivity. Qed.

Example begin_on_three_rows :
  begin (execute_query 1%positive) (Table.prepared Table.three_rows 0)
  = Return {| Iterator_statement_ := 1%positive; next_row_idx_ := 1 |}
           (Table.on_row Table.three_rows 0 1).
Proof. vm_compute. reflexivity. Qed.

Example three_rows_yields_three :
  yields_rows (statement_ (Table.handle Table.three_rows 0)) 3.
Proof. vm_compute. repeat split. Qed.

(** [begin] on the three rows: one step, position 1. *)
Lemma begin_steps_once_witness :
  ∃ w', begin (execute_query 1%positive) (Table.prepared Table.three_rows 0)
          = Return {| Iterator_statement_ := 1%positive; next_row_idx_ := 1 |} w'
        ∧ calls w' = [call_step 1%positive].
Proof.
  destruct (begin_steps_once (execute_query 1%positive) (Table.handle Table.three_rows 0)
              (Table.prepared Table.three_rows 0) eq_refl) as [Hrow _].
  destruct (Hrow eq_refl) as [Hbegin _].
  eexists. split; [exact Hbegin|reflexivity].
Defined.

(** The check after the rejected bind of parameter 1 to the integer 5. *)
Lemma check_and_report_bind_error_iff_witness :
  (∃ what, check_and_report_bind_error 1%positive SQLITE_RANGE 5 Table.rejected_bind
             = Throw (BindError what) Table.rejected_bind
           ∧ embeds "1" what ∧ embeds "5" what)
  ∧ check_and_report_bind_error 1%positive SQLITE_OK 5 Table.rejected_bind
    = Return tt Table.rejected_bind.
Proof.
  split.
  - destruct (check_and_report_bind_error_iff 1%positive Table.rejected_handle
                SQLITE_RANGE "5" 5 Table.rejected_bind eq_refl) as [_ (Hthrow & _ & _)].
    apply Hthrow. discriminate.
  - destruct (check_and_report_bind_error_iff 1%positive Table.rejected_handle
                SQLITE_OK "5" 5 Table.rejected_bind eq_refl) as [_ (_ & Hok & _)].
    apply Hok. reflexivity.
Defined.

(** Dereferencing on the first of the three rows. *)
Lemma operator_deref_reads_columns_in_order_witness :
  ∃ w', operator_deref [KInt; KText]
          {| Iterator_statement_ := 1%positive; next_row_idx_ := 1 |}
          (Table.on_row Table.three_rows 0 1)
        = Return [VInt 10; VText "a"] w'
      ∧ calls w' = [call_step 1%positive;
                    call_column 1%positive 0 KInt; call_column 1%positive 1 KText]
      ∧ heap w' = heap (Table.on_row Table.three_rows 0 1).
Proof.
  destruct (operator_deref_reads_columns_in_order [KInt; KText]
              {| Iterator_statement_ := 1%positive; next_row_idx_ := 1 |}
              (@Build_SqliteStatementWrapper Table.engine
                 (Table.Stmt Table.three_rows 1 0 []) 0 [])
              (Table.on_row Table.three_rows 0 1) eq_refl)
    as (row & w' & Hderef & Hrow & _ & _ & Hcalls & Hheap).
  exists w'. split; [rewrite Hderef, Hrow; reflexivity|].
  split; [exact Hcalls|exact Hheap].
Defined.

(** The INSERT, bound and executed: index and cache are cleared. *)
Lemma execute_and_reset_clears_witness :
  ∃ w', execute_and_reset 1%positive Table.insert_bound = Return 1%positive w'
        ∧ ∃ s', heap w' !! 1%positive = Some s'
                ∧ last_bound_parameter_index_ s' = 0
                ∧ written_blobs_cache_ s' = [].
Proof.
  eexists. split; [vm_compute; reflexivity|].
  apply (execute_and_reset_clears 1%positive 1%positive Table.insert_bound).
  vm_compute. reflexivity.
Defined.

(** Post-increment on the first of the three rows: the copy keeps index 1
    and reads the second row. *)
Lemma post_increment_copy_reads_advanced_row_witness :
  ∃ old_value this' w' w'',
    operator_deref [KInt; KText]
      {| Iterator_statement_ := 1%positive; next_row_idx_ := 1 |}
      (Table.on_row Table.three_rows 0 1)
    = Return [VInt 10; VText "a"]
        (World (heap (Table.on_row Table.three_rows 0 1))
           [call_step 1%positive;
            call_column 1%positive 0 KInt; call_column 1%positive 1 KText])
    ∧ operator_post_incr {| Iterator_statement_ := 1%positive; next_row_idx_ := 1 |}
        (Table.on_row Table.three_rows 0 1) = Return (old_value, this') w'
    ∧ next_row_idx_ old_value = 1
    ∧ next_row_idx_ this' = 2
    ∧ operator_deref [KInt; KText] old_value w' = Return [VInt 20; VText "b"] w''.
Proof.
  destruct (post_increment_copy_reads_advanced_row [KInt; KText]
              {| Iterator_statement_ := 1%positive; next_row_idx_ := 1 |}
              (@Build_SqliteStatementWrapper Table.engine
                 (Table.Stmt Table.three_rows 1 0 []) 0 [])
              (Table.on_row Table.three_rows 0 1) eq_refl)
    as (old_value & this' & w' & w'' & Hbefore & Hpost & Hold & _ & Hafter & _).
  - discriminate.
  - left. reflexivity.
  - exists old_value, this', w', w''.
    split; [exact Hbefore|]. split; [exact Hpost|].
    split; [rewrite Hold; reflexivity|]. split; [|exact Hafter].
    vm_compute in Hpost. injection Hpost as _ <- _. reflexivity.
Defined.

(** C9, as it is written, fails: two calls to begin on the three rows give
    two iterators at position 1, the second not one greater than the first. *)
Lemma second_begin_position_not_one_greater :
  ∃ it1 w1 it2 w2,
    begin (execute_query 1%positive) (Table.prepared Table.three_rows 0) = Return it1 w1
    ∧ begin (execute_query 1%positive) w1 = Return it2 w2
    ∧ next_row_idx_ it2 ≠ POSITION_END
    ∧ next_row_idx_ it1 = 1
    ∧ next_row_idx_ it2 = 1
    ∧ next_row_idx_ it2 ≠ next_row_idx_ it1 + 1.
Proof.
  eexists _, _, _, _. split; [vm_compute; reflexivity|].
  split; [vm_compute; reflexivity|].
  cbn [next_row_idx_]. repeat split; discriminate.
Qed.

(** Two calls to begin on the three rows. *)
Lemma begin_twice_consumes_two_rows_witness :
  ∃ it1 w1 it2 w2,
    begin (execute_query 1%positive) (Table.prepared Table.three_rows 0) = Return it1 w1
    ∧ begin (execute_query 1%positive) w1 = Return it2 w2
    ∧ calls w2 = [call_step 1%positive; call_step 1%positive]
    ∧ next_row_idx_ it1 = 1
    ∧ next_row_idx_ it2 = 1
    ∧ operator_eq it1 it2 = true.
Proof.
  destruct (begin_twice_consumes_two_rows (execute_query 1%positive)
              (Table.handle Table.three_rows 0) (Table.prepared Table.three_rows 0)
              eq_refl eq_refl eq_refl)
    as (_ & _ & it1 & w1 & it2 & w2 & H1 & H2 & Hcalls & _ & Hidx1 & Hidx2 & Heq).
  exists it1, w1, it2, w2. repeat split; assumption.
Defined.

End TableRuns.

(** * Traversal, errors and sharing *)

Section Traversal.
Context `{Sqlite3}.

Ltac run_monad :=
  unfold mbind, M_bind, bindM, mret, M_ret, ret, throw, deref, store, log in *.

Lemma step_error (p : loc) (s : SqliteStatementWrapper) (w : world) :
  heap w !! p = Some s →
  (sqlite3_step (statement_ s)).1 ≠ SQLITE_ROW →
  (sqlite3_step (statement_ s)).1 ≠ SQLITE_DONE →
  step p w = Throw (StepError (sqlite3_step (statement_ s)).1) (stepped 1 p s w).
Proof.
  intros Hs Hrow Hdone. rewrite (step_eq p s w Hs). simpl.
  apply Z.eqb_neq in Hrow, Hdone. rewrite Hrow, Hdone. reflexivity.
Qed.

Lemma step_dangling (p : loc) (w : world) : heap w !! p = None → step p w = Fault.
Proof. intros Hs. unfold step. run_monad. rewrite Hs. reflexivity. Qed.

Lemma begin_on_done (qr : QueryResult) (s : SqliteStatementWrapper) (w : world) :
  heap w !! QueryResult_statement_ qr = Some s →
  (sqlite3_step (statement_ s)).1 = SQLITE_DONE →
  begin qr w = Return {| Iterator_statement_ := QueryResult_statement_ qr;
                         next_row_idx_ := POSITION_END |}
                      (stepped 1 (QueryResult_statement_ qr) s w).
Proof.
  intros Hs Hrc. unfold begin, Iterator_new. simpl. unfold mbind, M_bind, bindM.
  rewrite (step_done _ s w Hs Hrc). reflexivity.
Qed.

Lemma operator_ne_end (it : Iterator) :
  operator_ne it {| Iterator_statement_ := Iterator_statement_ it;
                    next_row_idx_ := POSITION_END |}
  = negb (next_row_idx_ it =? POSITION_END).
Proof.
  unfold operator_ne, operator_eq. cbn [Iterator_statement_ next_row_idx_].
  rewrite bool_decide_eq_true_2 by reflexivity. reflexivity.
Qed.

(** X1.  An empty result is seen at once: the iterator [begin] returns
    compares equal to [end] exactly when the first step reports done, and
    unequal to it exactly when that step reports a row. *)
Theorem begin_equals_end_iff_no_rows (qr : QueryResult)
    (s : SqliteStatementWrapper) (w : world) :
  heap w !! QueryResult_statement_ qr = Some s →
  (sqlite3_step (statement_ s)).1 = SQLITE_ROW
  ∨ (sqlite3_step (statement_ s)).1 = SQLITE_DONE →
  ∃ first last w',
    begin qr w = Return first w'
    ∧ end_ qr w' = Return last w'
    ∧ (operator_eq first last = true ↔ (sqlite3_step (statement_ s)).1 = SQLITE_DONE)
    ∧ (operator_ne first last = true ↔ (sqlite3_step (statement_ s)).1 = SQLITE_ROW).
Proof.
  intros Hs [Hrc|Hrc]; eexists _, _, _.
  - split; [apply (begin_on_a_row qr s w Hs Hrc)|]. split; [reflexivity|].
    unfold operator_ne, operator_eq. cbn [Iterator_statement_ next_row_idx_].
    rewrite bool_decide_eq_true_2 by reflexivity. rewrite Hrc. simpl.
    split; split; intros Heq; try discriminate Heq; reflexivity.
  - split; [apply (begin_on_done qr s w Hs Hrc)|]. split; [reflexivity|].
    unfold operator_ne, operator_eq. cbn [Iterator_statement_ next_row_idx_].
    rewrite bool_decide_eq_true_2 by reflexivity. rewrite Hrc. simpl.
    split; split; intros Heq; try discriminate Heq; reflexivity.
Qed.

(** X2.  The loop guard [it != end()] of a traversal from [begin] holds
    after every number of advances below the number of rows and fails after
    exactly that many, for a statement of fewer than 2^32 - 1 rows; by then
    one native step was made per row and one more, and [end] made none. *)
Theorem traversal_guard_fails_after_all_rows (qr : QueryResult)
    (s : SqliteStatementWrapper) (w : world) (n k : nat) :
  heap w !! QueryResult_statement_ qr = Some s →
  yields_rows (statement_ s) n →
  Z.of_nat n < 4294967295 →
  (k ≤ n)%nat →
  ∃ it last w',
    bindM (begin qr) (advance k) w = Return it w'
    ∧ end_ qr w' = Return last w'
    ∧ operator_ne it last = bool_decide (k < n)%nat
    ∧ calls w' = calls w ++ replicate (S k) (call_step (QueryResult_statement_ qr)).
Proof.
  intros Hs Hy Hbound Hk. destruct (decide (k < n)%nat) as [Hlt|Hge].
  - eexists _, _, _. split; [apply (begin_advance qr s w n k Hs Hy Hlt); lia|].
    split; [reflexivity|]. split; [|reflexivity].
    rewrite bool_decide_eq_true_2 by exact Hlt.
    etrans;
      [exact (operator_ne_end {| Iterator_statement_ := QueryResult_statement_ qr;
                                 next_row_idx_ := wrap_int (Z.of_nat k + 1) |})|].
    cbn [next_row_idx_]. apply negb_true_iff, Z.eqb_neq, wrap_int_not_end. lia.
  - assert (k = n) as -> by lia.
    eexists _, _, _. split; [apply (begin_advance_all qr s w n Hs Hy Hbound)|].
    split; [reflexivity|]. split; [|reflexivity].
    rewrite bool_decide_eq_false_2 by lia.
    exact (operator_ne_end {| Iterator_statement_ := QueryResult_statement_ qr;
                              next_row_idx_ := POSITION_END |}).
Qed.

(** X3.  Rows come in the order the engine delivers them, one per advance:
    after [begin] and [k] advances over a statement with more than [k] rows
    the logical position is k + 1, the number of the current row, and
    dereferencing reads the statement as its (k + 1)-th step left it, without
    moving it.  The position is an int: k + 1 must not exceed INT_MAX. *)
Theorem kth_advance_reads_kth_row (Columns : list kind) (qr : QueryResult)
    (s : SqliteStatementWrapper) (w : world) (n k : nat) :
  heap w !! QueryResult_statement_ qr = Some s →
  yields_rows (statement_ s) n →
  (k < n)%nat →
  Z.of_nat k < INT_MAX →
  ∃ it w' w'',
    bindM (begin qr) (advance k) w = Return it w'
    ∧ next_row_idx_ it = Z.of_nat k + 1
    ∧ operator_deref Columns it w'
        = Return (current_row Columns (steps (S k) (statement_ s))) w''
    ∧ heap w'' = heap w'.
Proof.
  intros Hs Hy Hk Hbound. unfold INT_MAX in Hbound.
  eexists _, _, _. split; [apply (begin_advance qr s w n k Hs Hy Hk); lia|].
  split; [cbn [next_row_idx_]; apply wrap_int_small; unfold INT_MIN, INT_MAX; lia|].
  split.
  - apply (operator_deref_eq Columns _ (set_statement s (steps (S k) (statement_ s)))).
    apply stepped_lookup.
  - reflexivity.
Qed.

(** X4.  An engine error ends the increment: when the step of an iterator
    that is not at the end reports a code other than row or done, both
    [++it] and [it++] throw StepError with that code, after that one step;
    the post-increment returns no copy. *)
Theorem increment_propagates_step_error (it : Iterator)
    (s : SqliteStatementWrapper) (w : world) :
  heap w !! Iterator_statement_ it = Some s →
  next_row_idx_ it ≠ POSITION_END →
  (sqlite3_step (statement_ s)).1 ≠ SQLITE_ROW →
  (sqlite3_step (statement_ s)).1 ≠ SQLITE_DONE →
  operator_pre_incr it w
    = Throw (StepError (sqlite3_step (statement_ s)).1)
            (stepped 1 (Iterator_statement_ it) s w)
  ∧ operator_post_incr it w
    = Throw (StepError (sqlite3_step (statement_ s)).1)
            (stepped 1 (Iterator_statement_ it) s w).
Proof.
  intros Hs Hidx Hrow Hdone.
  assert (Hpre : operator_pre_incr it w
                 = Throw (StepError (sqlite3_step (statement_ s)).1)
                         (stepped 1 (Iterator_statement_ it) s w)).
  { unfold operator_pre_incr. apply Z.eqb_neq in Hidx. rewrite Hidx. simpl.
    unfold mbind, M_bind, bindM. rewrite (step_error _ s w Hs Hrow Hdone). reflexivity. }
  split; [exact Hpre|].
  unfold operator_post_incr. unfold mbind, M_bind, bindM. rewrite Hpre. reflexivity.
Qed.

(** What a returning increment did. *)
Lemma operator_pre_incr_returns (it it' : Iterator) (w w' : world) :
  operator_pre_incr it w = Return it' w' →
  ∃ s, heap w !! Iterator_statement_ it = Some s
       ∧ w' = stepped 1 (Iterator_statement_ it) s w
       ∧ Iterator_statement_ it' = Iterator_statement_ it
       ∧ next_row_idx_ it ≠ POSITION_END
       ∧ (next_row_idx_ it' = int_incr (next_row_idx_ it)
          ∨ next_row_idx_ it' = POSITION_END).
Proof.
  unfold operator_pre_incr.
  destruct (Z.eqb_spec (next_row_idx_ it) POSITION_END) as [Hend|Hidx]; simpl;
    [discriminate|].
  unfold mbind, M_bind, bindM.
  destruct (heap w !! Iterator_statement_ it) as [s|] eqn:Hs.
  - rewrite (step_eq _ s w Hs). simpl. intros Hrun. exists s.
    destruct (_ =? SQLITE_ROW);
      [|destruct (_ =? SQLITE_DONE); [|discriminate Hrun]];
      injection Hrun as <- <-; cbn [Iterator_statement_ next_row_idx_]; auto 10.
  - rewrite (step_dangling _ w Hs). discriminate.
Qed.

Lemma set_statement_same (s : SqliteStatementWrapper) : set_statement s (statement_ s) = s.
Proof. destruct s. reflexivity. Qed.

(** X5.  Advancing touches the iterator's own statement and nothing else:
    [k] advances that return keep the iterator on its handle, make exactly
    [k] native steps, all on that handle, leave every other handle in the
    store as it was, and leave the handle's parameter index and blob cache as
    they were, its statement [k] steps on. *)
Theorem advance_steps_own_handle_only (k : nat) (it it' : Iterator) (w w' : world) :
  advance k it w = Return it' w' →
  Iterator_statement_ it' = Iterator_statement_ it
  ∧ calls w' = calls w ++ replicate k (call_step (Iterator_statement_ it))
  ∧ (∀ q, q ≠ Iterator_statement_ it → heap w' !! q = heap w !! q)
  ∧ (∀ s, heap w !! Iterator_statement_ it = Some s →
       heap w' !! Iterator_statement_ it
       = Some {| statement_ := steps k (statement_ s);
                 last_bound_parameter_index_ := last_bound_parameter_index_ s;
                 written_blobs_cache_ := written_blobs_cache_ s |}).
Proof.
  revert it w. induction k as [|k IH]; intros it w Hrun.
  - injection Hrun as <- <-. split; [reflexivity|]. split; [symmetry; apply app_nil_r|].
    split; [reflexivity|]. intros s Hs. rewrite Hs. f_equal.
    symmetry. apply set_statement_same.
  - cbn [advance] in Hrun. unfold mbind, M_bind, bindM in Hrun.
    destruct (operator_pre_incr it w) as [it1 w1| |] eqn:Hpre; [|discriminate..].
    destruct (operator_pre_incr_returns it it1 w w1 Hpre) as (s0 & Hs0 & -> & Hp & _).
    destruct (IH it1 _ Hrun) as (Hp' & Hcalls & Hframe & Hown).
    rewrite Hp in Hp', Hcalls, Hframe, Hown.
    split; [exact Hp'|]. split; [|split].
    + rewrite Hcalls. unfold stepped. cbn [calls]. rewrite <- app_assoc. reflexivity.
    + intros q Hq. rewrite (Hframe q Hq). unfold stepped. cbn [heap].
      apply lookup_insert_ne. congruence.
    + intros s Hs. assert (s = s0) as -> by congruence.
      rewrite (Hown _ (stepped_lookup 1 _ s0 w)).
      cbn [statement_ set_statement last_bound_parameter_index_ written_blobs_cache_].
      rewrite (steps_S_first k). reflexivity.
Qed.

(** ** Rows *)

Lemma kind_of_column_value (st : sqlite3_stmt) (index : nat) (k : kind) :
  kind_of (column_value st index k) = k.
Proof. destruct k; reflexivity. Qed.

Lemma current_row_kinds (Columns : list kind) (st : sqlite3_stmt) :
  kind_of <$> current_row Columns st = Columns.
Proof.
  unfold current_row. rewrite fmap_imap.
  rewrite (imap_ext _ (const id) Columns).
  - rewrite imap_const. apply list_fmap_id.
  - intros i k _. apply kind_of_column_value.
Qed.

(** X6.  A row has the declared shape: dereferencing over a live handle
    returns, and the row it returns has one member per declared column, the
    i-th of the i-th declared type. *)
Theorem operator_deref_row_has_declared_shape (Columns : list kind) (it : Iterator)
    (s : SqliteStatementWrapper) (w : world) :
  heap w !! Iterator_statement_ it = Some s →
  ∃ row w',
    operator_deref Columns it w = Return row w'
    ∧ kind_of <$> row = Columns
    ∧ length row = length Columns.
Proof.
  intros Hs. eexists _, _. split; [apply (operator_deref_eq Columns it s w Hs)|].
  split; [apply current_row_kinds|]. unfold current_row. apply length_imap.
Qed.

(** X7.  Nothing of the row handed to [obtain_row_values] survives: every
    member is overwritten with its column, so whatever a row of the declared
    arity held before, the result is the current row; the value-initialised
    members never show. *)
Theorem obtain_row_values_overwrites_every_member (Columns : list kind) (it : Iterator)
    (s : SqliteStatementWrapper) (w : world) (row : list value) :
  heap w !! Iterator_statement_ it = Some s →
  length row = length Columns →
  obtain_row_values Columns it row w
  = Return (current_row Columns (statement_ s))
           (World (heap w)
              (calls w ++ imap (λ i k, call_column (Iterator_statement_ it) i k) Columns)).
Proof.
  intros Hs Hrow. unfold obtain_row_values, index_sequence_for.
  rewrite (obtain_row_values_impl_seq Columns it s (length Columns) 0 row w Hs);
    [reflexivity|reflexivity|exact Hrow].
Qed.

(** X8.  Dereferencing can be repeated: a second dereference returns the
    same row as the first, and after both the store is as it was before
    either; only column reads were added to the log. *)
Theorem operator_deref_twice_same_row (Columns : list kind) (it : Iterator)
    (s : SqliteStatementWrapper) (w : world) :
  heap w !! Iterator_statement_ it = Some s →
  ∃ row w1 w2,
    operator_deref Columns it w = Return row w1
    ∧ operator_deref Columns it w1 = Return row w2
    ∧ heap w2 = heap w
    ∧ calls w2
      = calls w ++ imap (λ i k, call_column (Iterator_statement_ it) i k) Columns
                ++ imap (λ i k, call_column (Iterator_statement_ it) i k) Columns.
Proof.
  intros Hs. eexists _, _, _. split; [apply (operator_deref_eq Columns it s w Hs)|].
  split; [apply (operator_deref_eq Columns it s); exact Hs|].
  split; [reflexivity|]. cbn [calls]. symmetry. apply app_assoc.
Qed.

(** ** Comparing iterators *)

(** X9.  [operator==] is an equivalence on iterators: reflexive, symmetric
    and transitive; [operator!=] is symmetric as well. *)
Theorem operator_eq_equivalence :
  (∀ a, operator_eq a a = true)
  ∧ (∀ a b, operator_eq a b = operator_eq b a)
  ∧ (∀ a b c, operator_eq a b = true → operator_eq b c = true → operator_eq a c = true)
  ∧ (∀ a b, operator_ne a b = operator_ne b a).
Proof.
  assert (Hsym : ∀ a b, operator_eq a b = operator_eq b a).
  { intros a b. unfold operator_eq. rewrite (Z.eqb_sym (next_row_idx_ a)).
    f_equal. apply bool_decide_ext. split; intros Heq; symmetry; exact Heq. }
  split; [|split; [exact Hsym|split]].
  - intros a. unfold operator_eq. rewrite bool_decide_eq_true_2 by reflexivity.
    apply Z.eqb_refl.
  - intros a b c. unfold operator_eq.
    rewrite !andb_true_iff, !bool_decide_eq_true, !Z.eqb_eq.
    intros [Hp Hi] [Hp' Hi']. split; congruence.
  - intros a b. unfold operator_ne. rewrite (Hsym a b). reflexivity.
Qed.

Lemma int_incr_ne (z : Z) : int_incr z ≠ z.
Proof.
  unfold int_incr, wrap_int. intros Heq.
  pose proof (Z.mod_pos_bound (z + 1 + 2147483648) 4294967296 ltac:(lia)) as Hm.
  destruct (Z_lt_le_dec (z + 2147483648 + 1) 4294967296) as [Hlt|Hge].
  - rewrite Z.mod_small in Heq by lia. lia.
  - assert (z = 2147483647) as -> by lia. vm_compute in Heq. discriminate Heq.
Qed.

(** X10.  Post-increment hands back the position it left: the copy it
    returns equals the iterator as it was and never equals the iterator as
    the increment leaves it. *)
Theorem post_increment_copy_differs_from_advanced (it old_value this' : Iterator)
    (w w' : world) :
  operator_post_incr it w = Return (old_value, this') w' →
  operator_eq old_value it = true
  ∧ operator_ne old_value this' = true
  ∧ Iterator_statement_ this' = Iterator_statement_ it.
Proof.
  unfold operator_post_incr. unfold mbind, M_bind, bindM. intros Hrun.
  destruct (operator_pre_incr it w) as [it1 w1| |] eqn:Hpre; [|discriminate..].
  injection Hrun as <- <- <-.
  destruct (operator_pre_incr_returns it it1 w w1 Hpre) as (s & _ & _ & Hp & Hidx & Hnext).
  split; [|split; [|exact Hp]].
  - unfold operator_eq. rewrite bool_decide_eq_true_2 by reflexivity. apply Z.eqb_refl.
  - unfold operator_ne, operator_eq. apply negb_true_iff, andb_false_iff. right.
    apply Z.eqb_neq. destruct Hnext as [-> | ->].
    + intros Heq. apply (int_incr_ne (next_row_idx_ it)). symmetry. exact Heq.
    + exact Hidx.
Qed.

(** ** The variadic bind, value by value *)

Section VariadicSteps.
Variable single : loc → value → M loc.
Variable this : loc.

Lemma bind_variadic_foldl (value1 value2 : value) (values : list value) (w : world) :
  bind_variadic single this value1 value2 values w
  = foldl (λ (so_far : M loc) (v : value), bindM so_far (λ _, single this v))
          (bindM (single this value1) (λ _, single this value2)) values w.
Proof.
  rewrite (foldl_bind_rest single this). apply bind_variadic_unfold.
Qed.

Lemma foldl_bind_throw (values : list value) (m : M loc)
    (e : SqliteException) (w w' : world) :
  m w = Throw e w' →
  foldl (λ (so_far : M loc) (v : value), bindM so_far (λ _, single this v)) m values w
  = Throw e w'.
Proof.
  revert m. induction values as [|v values IH]; intros m Hm; [exact Hm|].
  cbn [foldl]. apply IH. unfold bindM. rewrite Hm. reflexivity.
Qed.

(** The sequence of single binds over [pre ++ v :: post]: run the binds of
    [pre], bind [v], then go on with [post]. *)
Lemma bind_in_sequence_split (pre post : list value) (v : value) (w : world) :
  bind_in_sequence single this (pre ++ v :: post) w
  = foldl (λ (so_far : M loc) (v : value), bindM so_far (λ _, single this v))
          (bindM (bind_in_sequence single this pre) (λ _, single this v)) post w.
Proof.
  destruct pre as [|first pre].
  - cbn [app bind_in_sequence]. apply foldl_bind_ext. intros w0. reflexivity.
  - cbn [app bind_in_sequence]. rewrite foldl_app. reflexivity.
Qed.

(** X11.  A failing bind ends the variadic bind: when the binds of the
    values before some value return and the bind of that value throws, the
    variadic bind throws that exception in the world that bind left, and
    none of the values after it is bound. *)
Theorem bind_variadic_stops_at_first_failure
    (value1 value2 : value) (values pre post : list value) (v : value)
    (q : loc) (e : SqliteException) (w w1 w2 : world) :
  value1 :: value2 :: values = pre ++ v :: post →
  bind_in_sequence single this pre w = Return q w1 →
  single this v w1 = Throw e w2 →
  bind_variadic single this value1 value2 values w = Throw e w2.
Proof.
  intros Hsplit Hpre Hv. rewrite bind_variadic_foldl.
  change (bind_in_sequence single this (value1 :: value2 :: values) w = Throw e w2).
  rewrite Hsplit, bind_in_sequence_split. apply foldl_bind_throw.
  unfold bindM. rewrite Hpre. exact Hv.
Qed.

(** X12.  The variadic bind ends as its last single bind does: when the
    binds of all values but the last return, the variadic bind is the bind
    of the last value in the world they left, and returns what it returns. *)
Theorem bind_variadic_ends_as_last_bind
    (value1 value2 : value) (values pre : list value) (v : value)
    (q : loc) (w w1 : world) :
  value1 :: value2 :: values = pre ++ [v] →
  bind_in_sequence single this pre w = Return q w1 →
  bind_variadic single this value1 value2 values w = single this v w1.
Proof.
  intros Hsplit Hpre. rewrite bind_variadic_foldl.
  change (bind_in_sequence single this (value1 :: value2 :: values) w = single this v w1).
  rewrite Hsplit, bind_in_sequence_split. cbn [foldl].
  unfold bindM. rewrite Hpre. reflexivity.
Qed.

End VariadicSteps.

End Traversal.

Section TraversalRuns.
#[local] Existing Instance Table.engine.

(** An empty result: [begin] compares equal to [end]. *)
Lemma begin_equals_end_iff_no_rows_witness :
  ∃ first last w',
    begin (execute_query 1%positive) (Table.prepared [] 0) = Return first w'
    ∧ end_ (execute_query 1%positive) w' = Return last w'
    ∧ operator_eq first last = true.
Proof.
  destruct (begin_equals_end_iff_no_rows (execute_query 1%positive)
              (Table.handle [] 0) (Table.prepared [] 0) eq_refl)
    as (first & last & w' & Hbegin & Hend & Heq & _).
  - right. reflexivity.
  - exists first, last, w'. split; [exact Hbegin|]. split; [exact Hend|].
    apply Heq. reflexivity.
Defined.

(** The three rows, traversed: after three advances the guard fails, four
    steps made. *)
Lemma traversal_guard_fails_after_all_rows_witness :
  ∃ it last w',
    bindM (begin (execute_query 1%positive)) (advance 3)
          (Table.prepared Table.three_rows 0) = Return it w'
    ∧ end_ (execute_query 1%positive) w' = Return last w'
    ∧ operator_ne it last = false
    ∧ calls w' = replicate 4 (call_step 1%positive).
Proof.
  apply (traversal_guard_fails_after_all_rows (execute_query 1%positive)
           (Table.handle Table.three_rows 0) (Table.prepared Table.three_rows 0) 3 3).
  - reflexivity.
  - vm_compute. repeat split.
  - reflexivity.
  - lia.
Defined.

(** The third of the three rows, read after two advances. *)
Lemma kth_advance_reads_kth_row_witness :
  ∃ it w' w'',
    bindM (begin (execute_query 1%positive)) (advance 2)
          (Table.prepared Table.three_rows 0) = Return it w'
    ∧ next_row_idx_ it = 3
    ∧ operator_deref [KInt; KText] it w' = Return [VInt 30; VText "c"] w''
    ∧ heap w'' = heap w'.
Proof.
  apply (kth_advance_reads_kth_row [KInt; KText] (execute_query 1%positive)
           (Table.handle Table.three_rows 0) (Table.prepared Table.three_rows 0) 3 2).
  - reflexivity.
  - vm_compute. repeat split.
  - lia.
  - reflexivity.
Defined.

(** The statement that fails on its second step. *)
Lemma increment_propagates_step_error_witness :
  ∃ w',
    operator_pre_incr {| Iterator_statement_ := 1%positive; next_row_idx_ := 1 |}
      (Table.on_row Table.failing_rows 0 1) = Throw (StepError 5) w'
    ∧ operator_post_incr {| Iterator_statement_ := 1%positive; next_row_idx_ := 1 |}
        (Table.on_row Table.failing_rows 0 1) = Throw (StepError 5) w'.
Proof.
  eexists.
  apply (increment_propagates_step_error
           {| Iterator_statement_ := 1%positive; next_row_idx_ := 1 |}
           (@Build_SqliteStatementWrapper Table.engine
              (Table.Stmt Table.failing_rows 1 0 []) 0 [])
           (Table.on_row Table.failing_rows 0 1)).
  - reflexivity.
  - discriminate.
  - discriminate.
  - discriminate.
Defined.

(** Two advances from the first of the three rows. *)
Lemma advance_steps_own_handle_only_witness :
  ∃ it' w',
    advance 2 {| Iterator_statement_ := 1%positive; next_row_idx_ := 1 |}
      (Table.on_row Table.three_rows 0 1) = Return it' w'
    ∧ Iterator_statement_ it' = 1%positive
    ∧ calls w' = [call_step 1%positive; call_step 1%positive; call_step 1%positive]
    ∧ ∀ q, q ≠ 1%positive → heap w' !! q = heap (Table.on_row Table.three_rows 0 1) !! q.
Proof.
  eexists _, _. split; [vm_compute; reflexivity|].
  destruct (advance_steps_own_handle_only 2
              {| Iterator_statement_ := 1%positive; next_row_idx_ := 1 |} _
              (Table.on_row Table.three_rows 0 1) _ eq_refl)
    as (Hp & Hcalls & Hframe & _).
  split; [exact Hp|]. split; [exact Hcalls|exact Hframe].
Defined.

(** The first of the three rows has the shape (int, text). *)
Lemma operator_deref_row_has_declared_shape_witness :
  ∃ row w',
    operator_deref [KInt; KText]
      {| Iterator_statement_ := 1%positive; next_row_idx_ := 1 |}
      (Table.on_row Table.three_rows 0 1) = Return row w'
    ∧ kind_of <$> row = [KInt; KText]
    ∧ length row = 2%nat.
Proof.
  apply (operator_deref_row_has_declared_shape [KInt; KText]
           {| Iterator_statement_ := 1%positive; next_row_idx_ := 1 |}
           (@Build_SqliteStatementWrapper Table.engine
              (Table.Stmt Table.three_rows 1 0 []) 0 [])
           (Table.on_row Table.three_rows 0 1)).
  reflexivity.
Defined.

(** A row holding other values, even of other types, is overwritten. *)
Lemma obtain_row_values_overwrites_every_member_witness :
  obtain_row_values [KInt; KText]
    {| Iterator_statement_ := 1%positive; next_row_idx_ := 1 |}
    [VText "junk"; VInt 99] (Table.on_row Table.three_rows 0 1)
  = Return [VInt 10; VText "a"]
      (World (heap (Table.on_row Table.three_rows 0 1))
         [call_step 1%positive;
          call_column 1%positive 0 KInt; call_column 1%positive 1 KText]).
Proof.
  apply (obtain_row_values_overwrites_every_member [KInt; KText]
           {| Iterator_statement_ := 1%positive; next_row_idx_ := 1 |}
           (@Build_SqliteStatementWrapper Table.engine
              (Table.Stmt Table.three_rows 1 0 []) 0 [])
           (Table.on_row Table.three_rows 0 1) [VText "junk"; VInt 99]).
  - reflexivity.
  - reflexivity.
Defined.

(** The first of the three rows, read twice. *)
Lemma operator_deref_twice_same_row_witness :
  ∃ w1 w2,
    operator_deref [KInt; KText]
      {| Iterator_statement_ := 1%positive; next_row_idx_ := 1 |}
      (Table.on_row Table.three_rows 0 1) = Return [VInt 10; VText "a"] w1
    ∧ operator_deref [KInt; KText]
        {| Iterator_statement_ := 1%positive; next_row_idx_ := 1 |} w1
      = Return [VInt 10; VText "a"] w2
    ∧ heap w2 = heap (Table.on_row Table.three_rows 0 1).
Proof.
  destruct (operator_deref_twice_same_row [KInt; KText]
              {| Iterator_statement_ := 1%positive; next_row_idx_ := 1 |}
              (@Build_SqliteStatementWrapper Table.engine
                 (Table.Stmt Table.three_rows 1 0 []) 0 [])
              (Table.on_row Table.three_rows 0 1) eq_refl)
    as (row & w1 & w2 & H1 & H2 & Hheap & _).
  assert (Hrow : row = [VInt 10; VText "a"]).
  { vm_compute in H1. injection H1 as <- _. reflexivity. }
  rewrite Hrow in H1, H2. exists w1, w2. split; [exact H1|]. split; [exact H2|exact Hheap].
Defined.

(** Post-increment on the first of the three rows. *)
Lemma post_increment_copy_differs_from_advanced_witness :
  ∃ old_value this' w',
    operator_post_incr {| Iterator_statement_ := 1%positive; next_row_idx_ := 1 |}
      (Table.on_row Table.three_rows 0 1) = Return (old_value, this') w'
    ∧ operator_eq old_value {| Iterator_statement_ := 1%positive; next_row_idx_ := 1 |} = true
    ∧ operator_ne old_value this' = true
    ∧ Iterator_statement_ this' = 1%positive.
Proof.
  eexists _, _, _. split; [vm_compute; reflexivity|].
  apply (post_increment_copy_differs_from_advanced
           {| Iterator_statement_ := 1%positive; next_row_idx_ := 1 |} _ _
           (Table.on_row Table.three_rows 0 1) _ eq_refl).
Defined.

(** Three values for a statement of one parameter: the second bind is
    rejected and the third value is never bound. *)
Lemma bind_variadic_stops_at_first_failure_witness :
  ∃ w2,
    bind_variadic bind 1%positive (VInt 1) (VInt 2) [VInt 3] (Table.prepared [] 1)
    = Throw (BindError "SQLite error when binding parameter 2 to value '2'. Return code: 25") w2
    ∧ calls w2 = [call_bind 1%positive 1 (VInt 1); call_bind 1%positive 2 (VInt 2)].
Proof.
  eexists. split.
  - eapply (bind_variadic_stops_at_first_failure bind 1%positive
              (VInt 1) (VInt 2) [VInt 3] [VInt 1] [VInt 3] (VInt 2)).
    + reflexivity.
    + vm_compute. reflexivity.
    + vm_compute. reflexivity.
  - reflexivity.
Defined.

(** Two values for a statement of two parameters. *)
Lemma bind_variadic_ends_as_last_bind_witness :
  ∃ w1,
    bind_in_sequence bind 1%positive [VInt 1] (Table.prepared [] 2) = Return 1%positive w1
    ∧ bind_variadic bind 1%positive (VInt 1) (VBlob (Some [x01; x02])) [] (Table.prepared [] 2)
      = bind 1%positive (VBlob (Some [x01; x02])) w1.
Proof.
  eexists. split; [vm_compute; reflexivity|].
  apply (bind_variadic_ends_as_last_bind bind 1%positive
           (VInt 1) (VBlob (Some [x01; x02])) [] [VInt 1] (VBlob (Some [x01; x02]))
           1%positive).
  - reflexivity.
  - vm_compute. reflexivity.
Defined.

End TraversalRuns.
